(** * smart_library_bot: the fuzzy search-and-ranking engine

    A shallow embedding of [advanced_search.js] (normalizer, similarity
    scorer, search orchestrator), of [search_cache.js] (the result cache
    wrapper) and of the constants of [config.js], with the properties the
    specification states about them.

    Conventions of the embedding:
    - a JavaScript string is the list of its UTF-16 code units ([jsstring]);
      [length], indexing, [startsWith], [includes] and [indexOf] act on code
      units, exactly as in the language;
    - JavaScript numbers that hold counters, lengths, identifiers and table
      cells are integers ([nat], [Z]); numbers that hold scores are exact
      rationals ([Q]): binary64 rounding is not part of the model;
    - an exception is an explicit outcome ([Throw]); the shared cache is an
      explicit state threaded through every call;
    - [toLowerCase], [localeCompare], the database and the node-cache store
      live outside the repository and are parameters of the embedding. *)

From Stdlib Require Import ZArith QArith Qminmax Qabs Qround Lqa Lia List Sorted Permutation.
From Stdlib Require Import Ascii String DecimalPos DecimalN.
From stdpp Require Import base option list gmap.

Local Open Scope nat_scope.

(** ** JavaScript strings and the built-ins the engine calls *)

Module JS.

(** A string is the sequence of its UTF-16 code units. *)
Abbreviation jsstring := (list N) (only parsing).

(** An ASCII literal as a JavaScript string. *)
Definition lit (s : string) : jsstring :=
  List.map N_of_ascii (list_ascii_of_string s).

(** [s.startsWith(p)] *)
Fixpoint startsWith (s p : jsstring) : bool :=
  match p, s with
  | [], _ => true
  | _ :: _, [] => false
  | c :: p', d :: s' => (d =? c)%N && startsWith s' p'
  end.

(** [s.includes(p)] *)
Fixpoint includes (s p : jsstring) : bool :=
  startsWith s p ||
  match s with
  | [] => false
  | _ :: s' => includes s' p
  end.

(** [s.indexOf(p)], with [-1] for an absent pattern. *)
Fixpoint indexOf_from (i : Z) (s p : jsstring) : Z :=
  if startsWith s p then i
  else match s with
       | [] => (-1)%Z
       | _ :: s' => indexOf_from (i + 1)%Z s' p
       end.

Definition indexOf (s p : jsstring) : Z := indexOf_from 0%Z s p.

(** [s[i]], or [undefined] out of range. *)
Definition charAt (s : jsstring) (i : Z) : option N :=
  if (i <? 0)%Z then None else s !! Z.to_nat i.

(** [s.replace(/c1|c2|.../g, r)] for single-character alternatives and a
    single-character replacement: every occurrence is replaced. *)
Definition replace_g (pats : list N) (r : N) (s : jsstring) : jsstring :=
  List.map (fun c => if existsb (N.eqb c) pats then r else c) s.

(** The code units [trim] strips: WhiteSpace and LineTerminator of the
    language specification. *)
Definition isWhiteSpace (c : N) : bool :=
  existsb (N.eqb c)
    [0x09; 0x0A; 0x0B; 0x0C; 0x0D; 0x20; 0xA0; 0x1680;
     0x2000; 0x2001; 0x2002; 0x2003; 0x2004; 0x2005; 0x2006; 0x2007;
     0x2008; 0x2009; 0x200A; 0x2028; 0x2029; 0x202F; 0x205F; 0x3000;
     0xFEFF]%N.

Fixpoint trimStart (s : jsstring) : jsstring :=
  match s with
  | [] => []
  | c :: s' => if isWhiteSpace c then trimStart s' else s
  end.

Fixpoint trimEnd (s : jsstring) : jsstring :=
  match s with
  | [] => []
  | c :: s' =>
      match trimEnd s' with
      | [] => if isWhiteSpace c then [] else [c]
      | r => c :: r
      end
  end.

(** [s.trim()] *)
Definition trim (s : jsstring) : jsstring := trimEnd (trimStart s).

(** [/^\d+$/.test(s)]: one or more ASCII digits and nothing else. *)
Definition isDigit (c : N) : bool := (48 <=? c)%N && (c <=? 57)%N.

Definition test_digits (s : jsstring) : bool :=
  match s with
  | [] => false
  | _ => forallb isDigit s
  end.

(** [parseInt(s)] on a string of ASCII digits (the only use in the engine):
    the decimal value. *)
Definition parseInt (s : jsstring) : Z :=
  fold_left (fun acc c => (10 * acc + (Z.of_N c - 48))%Z) s 0%Z.

(** [arr.slice(0, end)] for an integer [end]: a negative [end] counts from
    the end of the array. *)
Definition slice0 {A} (l : list A) (e : Z) : list A :=
  if (e <? 0)%Z
  then firstn (Z.to_nat (Z.max (Z.of_nat (length l) + e) 0)) l
  else firstn (Z.to_nat e) l.

(** [arr.find(p)]: the first element satisfying [p]. *)
Definition find {A} (p : A -> bool) (l : list A) : option A := List.find p l.

(** [arr.sort(cmp)] for a comparator returning a number. The language
    requires the sort to be stable; for a consistent comparator the result
    is the one stable ordering, which insertion from the right computes:
    [x] goes before the first [y] with [cmp x y <= 0]. *)
Section Sort.
Context {A : Type} (cmp : A -> A -> Q).

Fixpoint sort_insert (x : A) (l : list A) : list A :=
  match l with
  | [] => [x]
  | y :: l' =>
      if Qle_bool (cmp x y) 0 then x :: l
      else y :: sort_insert x l'
  end.

Definition sort (l : list A) : list A := foldr sort_insert [] l.
End Sort.

End JS.

Import JS.

(** ** Text normalizer ([advanced_search.js], lines 10-46) *)

Definition arabicDigits : jsstring :=
  [0x660; 0x661; 0x662; 0x663; 0x664; 0x665; 0x666; 0x667; 0x668; 0x669]%N.
Definition persianDigits : jsstring :=
  [0x6F0; 0x6F1; 0x6F2; 0x6F3; 0x6F4; 0x6F5; 0x6F6; 0x6F7; 0x6F8; 0x6F9]%N.
Definition englishDigits : jsstring := lit "0123456789".

(** One turn of the loop body of [convertToEnglishDigits]: the string to
    append for the code unit [char]. [englishDigits[index]] is in range
    whenever [index] is not [-1]. *)
Definition convert_step (char : N) : jsstring :=
  let index := indexOf arabicDigits [char] in
  if negb (index =? -1)%Z then option_list (charAt englishDigits index)
  else
    let index := indexOf persianDigits [char] in
    if negb (index =? -1)%Z then option_list (charAt englishDigits index)
    else [char].

Definition convertToEnglishDigits (inputStr : jsstring) : jsstring :=
  fold_left (fun outputStr char => outputStr ++ convert_step char) inputStr [].

Definition normalizePersianArabicChars (text : jsstring) : jsstring :=
  trim
    (replace_g [0x629] 0x647
    (replace_g [0x625; 0x623; 0x622] 0x627
    (replace_g [0x624] 0x648
    (replace_g [0x626] 0x64A
    (replace_g [0x649] 0x64A
    (replace_g [0x6CC] 0x64A
    (replace_g [0x6A9] 0x643 text)))))))%N.

(** The normalizer as the orchestrator and its caller compose it. *)
Definition normalize (query : jsstring) : jsstring :=
  convertToEnglishDigits (normalizePersianArabicChars query).

(** ** Configuration ([config.js]) *)

Module config.
Module search.
Definition maxQueryLength : nat := 37.
Definition maxSimilarResults : Z := 10.
Module weights.
Definition bookName : Q := 7 # 10.
Definition authorName : Q := 3 # 10.
End weights.
Definition fuzzyThreshold : Q := 3 # 10.
End search.
Module cache.
Definition enabled : bool := true.
Definition stdTTL : nat := 600.
Definition checkperiod : nat := 120.
Definition maxKeys : nat := 1000.
End cache.
End config.

(** ** Exceptions *)

Inductive exn : Type :=
| TypeError      (* a method called on [null] *)
| StorageError.  (* the database call rejected *)

Inductive outcome (A : Type) : Type :=
| Return (a : A)
| Throw (e : exn).
Arguments Return {A} a.
Arguments Throw {A} e.

Definition obind {A B} (m : outcome A) (k : A -> outcome B) : outcome B :=
  match m with
  | Return a => k a
  | Throw e => Throw e
  end.

Notation "'do' x <- m ; k" := (obind m (fun x => k))
  (at level 10, x name, m at level 100, k at level 200).

(** [arr.map(f)] where the callback may throw: the elements are visited in
    order and the first exception leaves the loop. *)
Fixpoint map_throwing {A B} (f : A -> outcome B) (l : list A) : outcome (list B) :=
  match l with
  | [] => Return []
  | a :: l' =>
      do b <- f a;
      do bs <- map_throwing f l';
      Return (b :: bs)
  end.

(** ** The host: what the JavaScript runtime supplies *)

Class Host : Type := {
  (** [String.prototype.toLowerCase] *)
  toLowerCase : jsstring -> jsstring;
  (** [String.prototype.localeCompare]: negative, zero or positive *)
  localeCompare : jsstring -> jsstring -> Z
}.

(** ** Catalog rows *)

(** A row of [usol_books] as the query of [advancedSearch] selects it. A
    text field that is [null] in the row is [None]; the counters are
    integers. *)
Record book : Type := {
  id : Z;
  file_path : option jsstring;
  emergency_file_path : option jsstring;
  book_name : option jsstring;
  author_name : option jsstring;
  category : option jsstring;
  request_count : Z;
  total_requests : Z
}.

(** ** Similarity scorer ([advanced_search.js], lines 54-133) *)

(** The table [dp]: an array of rows. *)
Abbreviation table := (list (list nat)) (only parsing).

(** [dp[i][j]] *)
Definition tget (dp : table) (i j : nat) : nat :=
  default 0 (dp !! i ≫= fun row => row !! j).

(** [dp[i][j] = v]; every index the algorithm writes is in range. *)
Definition tset (dp : table) (i j v : nat) : table :=
  match dp !! i with
  | Some row => <[i := <[j := v]> row]> dp
  | None => dp
  end.

Definition min3 (a b c : nat) : nat := Nat.min (Nat.min a b) c.

Definition levenshteinDistance (str1 str2 : jsstring) : nat :=
  let m := length str1 in
  let n := length str2 in
  let dp : table := replicate (m + 1) (replicate (n + 1) 0) in
  let dp := foldl (fun dp i => tset dp i 0 i) dp (seq 0 (m + 1)) in
  let dp := foldl (fun dp j => tset dp 0 j j) dp (seq 0 (n + 1)) in
  let dp :=
    foldl (fun dp i =>
      foldl (fun dp j =>
        if bool_decide (str1 !! (i - 1) = str2 !! (j - 1))
        then tset dp i j (tget dp (i - 1) (j - 1))
        else tset dp i j
               (min3 (tget dp (i - 1) j) (tget dp i (j - 1))
                     (tget dp (i - 1) (j - 1)) + 1))
        dp (seq 1 n))
      dp (seq 1 m) in
  tget dp m n.

Definition Qnat (n : nat) : Q := inject_Z (Z.of_nat n).

Section Scorer.
Context `{Host}.

Definition calculateSimilarity (str1 str2 : jsstring) : Q :=
  let s1 := toLowerCase str1 in
  let s2 := toLowerCase str2 in
  if bool_decide (s1 = s2) then 1%Q
  else if startsWith s1 s2 || startsWith s2 s1 then 9 # 10
  else if includes s1 s2 || includes s2 s1 then 7 # 10
  else
    let distance := levenshteinDistance s1 s2 in
    let maxLen := Nat.max (length s1) (length s2) in
    (1 - Qnat distance / Qnat maxLen)%Q.

(** [x.toLowerCase()] on a field that may be [null]. *)
Definition toLowerCase_of (x : option jsstring) : outcome jsstring :=
  match x with
  | Some s => Return (toLowerCase s)
  | None => Throw TypeError
  end.

Definition scoreBook (b : book) (query : jsstring) : outcome Q :=
  let normalizedQuery := normalizePersianArabicChars (toLowerCase query) in
  do lowerBookName <- toLowerCase_of (book_name b);
  let normalizedBookName := normalizePersianArabicChars lowerBookName in
  do lowerAuthorName <- toLowerCase_of (author_name b);
  let normalizedAuthorName := normalizePersianArabicChars lowerAuthorName in
  let bookNameScore := calculateSimilarity normalizedBookName normalizedQuery in
  let authorNameScore := calculateSimilarity normalizedAuthorName normalizedQuery in
  let totalScore :=
    (bookNameScore * config.search.weights.bookName +
     authorNameScore * config.search.weights.authorName)%Q in
  let popularityBoost := Qmin (inject_Z (request_count b) / 100) (1 # 10) in
  Return (totalScore + popularityBoost)%Q.
End Scorer.


(** ** Number formatting and JSON, as far as the engine uses them *)

Fixpoint uint_codes (d : Decimal.uint) : jsstring :=
  match d with
  | Decimal.Nil => []
  | Decimal.D0 d => 48%N :: uint_codes d
  | Decimal.D1 d => 49%N :: uint_codes d
  | Decimal.D2 d => 50%N :: uint_codes d
  | Decimal.D3 d => 51%N :: uint_codes d
  | Decimal.D4 d => 52%N :: uint_codes d
  | Decimal.D5 d => 53%N :: uint_codes d
  | Decimal.D6 d => 54%N :: uint_codes d
  | Decimal.D7 d => 55%N :: uint_codes d
  | Decimal.D8 d => 56%N :: uint_codes d
  | Decimal.D9 d => 57%N :: uint_codes d
  end.

(** The decimal digits of a natural number, ["0"] for zero. *)
Definition decimal (n : N) : jsstring := uint_codes (N.to_uint n).

(** [String(n)] for an integer [n]. *)
Definition integerToString (n : Z) : jsstring :=
  if (n <? 0)%Z then lit "-" ++ decimal (Z.to_N (- n)) else decimal (Z.to_N n).

(** Steps 10 of Number.prototype.toFixed: the digits [m] of [n] are padded
    with zeros to [f + 1] places and the point is set before the last [f]. *)
Definition setPoint (m : jsstring) (f : nat) : jsstring :=
  if f =? 0 then m
  else
    let k := length m in
    let m := if k <=? f then replicate (f + 1 - k) 48%N ++ m else m in
    let k := length m in
    firstn (k - f) m ++ lit "." ++ skipn (k - f) m.

(** [x.toFixed(f)] for [x] below [10^21] in absolute value: [n] is the
    integer nearest to [x * 10^f], the larger one on a tie. *)
Definition toFixed (x : Q) (f : nat) : jsstring :=
  let s := if Qlt_le_dec x 0 then lit "-" else [] in
  let x := Qabs x in
  let n := Qfloor (x * inject_Z (10 ^ Z.of_nat f) + (1 # 2)) in
  let m := decimal (Z.to_N n) in
  s ++ setPoint m f.

Definition hexDigit (n : N) : N := if (n <? 10)%N then (48 + n)%N else (87 + n)%N.

(** [\uXXXX] with lower-case hexadecimal digits. *)
Definition unicodeEscape (c : N) : jsstring :=
  lit "\u" ++ [hexDigit (c / 4096 mod 16); hexDigit (c / 256 mod 16);
               hexDigit (c / 16 mod 16); hexDigit (c mod 16)]%N.

Definition isHighSurrogate (c : N) : bool := (0xD800 <=? c)%N && (c <=? 0xDBFF)%N.
Definition isLowSurrogate (c : N) : bool := (0xDC00 <=? c)%N && (c <=? 0xDFFF)%N.

Definition quoteChar (c : N) : jsstring :=
  if (c =? 0x08)%N then lit "\b"
  else if (c =? 0x09)%N then lit "\t"
  else if (c =? 0x0A)%N then lit "\n"
  else if (c =? 0x0C)%N then lit "\f"
  else if (c =? 0x0D)%N then lit "\r"
  else if (c =? 0x22)%N then [0x5C; 0x22]%N
  else if (c =? 0x5C)%N then [0x5C; 0x5C]%N
  else if (c <? 0x20)%N then unicodeEscape c
  else [c].

(** The body of QuoteJSONString: control characters, the quote, the
    backslash and unpaired surrogates are escaped. *)
Fixpoint quoteBody (s : jsstring) : jsstring :=
  match s with
  | [] => []
  | c :: s' =>
      if isHighSurrogate c then
        match s' with
        | d :: s'' =>
            if isLowSurrogate d then c :: d :: quoteBody s''
            else unicodeEscape c ++ quoteBody s'
        | [] => unicodeEscape c
        end
      else if isLowSurrogate c then unicodeEscape c ++ quoteBody s'
      else quoteChar c ++ quoteBody s'
  end.

Definition quoteJSONString (s : jsstring) : jsstring :=
  [0x22%N] ++ quoteBody s ++ [0x22%N].

(** ** Search options *)

(** One own property of an options object, typed as the engine reads it:
    [category] and [author] hold a string or [null], [sortBy] a string,
    [limit] an integer. An options object is the list of its properties in
    the order they were written, which is the order [JSON.stringify]
    enumerates them in. *)
Inductive property : Type :=
| p_category (v : option jsstring)
| p_author (v : option jsstring)
| p_sortBy (v : jsstring)
| p_limit (v : Z).

Abbreviation Options := (list property) (only parsing).

Definition propertyName (p : property) : jsstring :=
  match p with
  | p_category _ => lit "category"
  | p_author _ => lit "author"
  | p_sortBy _ => lit "sortBy"
  | p_limit _ => lit "limit"
  end.

Definition nullable_json (v : option jsstring) : jsstring :=
  match v with
  | Some s => quoteJSONString s
  | None => lit "null"
  end.

Definition propertyValue_json (p : property) : jsstring :=
  match p with
  | p_category v => nullable_json v
  | p_author v => nullable_json v
  | p_sortBy v => quoteJSONString v
  | p_limit v => integerToString v
  end.

Definition property_json (p : property) : jsstring :=
  quoteJSONString (propertyName p) ++ lit ":" ++ propertyValue_json p.

Fixpoint join (sep : jsstring) (l : list jsstring) : jsstring :=
  match l with
  | [] => []
  | [x] => x
  | x :: l' => x ++ sep ++ join sep l'
  end.

(** [JSON.stringify(options)] *)
Definition JSON_stringify (options : Options) : jsstring :=
  lit "{" ++ join (lit ",") (List.map property_json options) ++ lit "}".

(** The destructuring [{ category = null, author = null,
    sortBy = "relevance", limit = config.search.maxSimilarResults }]. *)
Fixpoint readProperty {A} (sel : property -> option A) (options : Options) : option A :=
  match options with
  | [] => None
  | p :: options' =>
      match sel p with
      | Some a => Some a
      | None => readProperty sel options'
      end
  end.

Definition get_category (options : Options) : option jsstring :=
  default None
    (readProperty (fun p => match p with p_category v => Some v | _ => None end) options).

Definition get_author (options : Options) : option jsstring :=
  default None
    (readProperty (fun p => match p with p_author v => Some v | _ => None end) options).

Definition get_sortBy (options : Options) : jsstring :=
  default (lit "relevance")
    (readProperty (fun p => match p with p_sortBy v => Some v | _ => None end) options).

Definition get_limit (options : Options) : Z :=
  default config.search.maxSimilarResults
    (readProperty (fun p => match p with p_limit v => Some v | _ => None end) options).

(** ** Result cache ([search_cache.js]) *)

(** The statistics object of the node-cache instance. *)
Record nc_stats : Type := {
  nc_hits : nat;
  nc_misses : nat;
  nc_keycount : nat;
  nc_ksize : nat;
  nc_vsize : nat
}.

(** The node-cache instance the wrapper owns. The package is not part of
    the repository; the wrapper uses it through these operations, each a
    transformer of the store [C] holding values [V]: [get] answers
    [undefined] ([None]) for an absent or expired key, [set] answers the
    success flag the wrapper documents. *)
Class NodeCache (V C : Type) : Type := {
  nc_get : jsstring -> C -> option V * C;
  nc_set : jsstring -> V -> option nat -> C -> bool * C;
  nc_del : jsstring -> C -> nat * C;
  nc_flushAll : C -> C;
  nc_keys : C -> list jsstring;
  nc_getStats : C -> nc_stats
}.

Module searchCache.

(** The module state: the store and the two counters. *)
Record state (C : Type) : Type := {
  store : C;
  hits : nat;
  misses : nat
}.
Arguments store {C} s.
Arguments hits {C} s.
Arguments misses {C} s.

(** The object [getStats] returns. *)
Record statistics : Type := {
  stat_hits : nat;
  stat_misses : nat;
  stat_hitRate : jsstring;
  stat_keys : nat;
  stat_size : nc_stats
}.

Section Wrapper.
Context {V C : Type} `{NodeCache V C}.

Definition get (key : jsstring) (st : state C) : option V * state C :=
  if negb config.cache.enabled then (None, st)
  else
    let '(value, store') := nc_get key (store st) in
    match value with
    | Some v => (Some v, {| store := store'; hits := hits st + 1; misses := misses st |})
    | None => (None, {| store := store'; hits := hits st; misses := misses st + 1 |})
    end.

(** A [ttl] that is [undefined] or [0] is falsy: the store's default
    applies. *)
Definition set (key : jsstring) (value : V) (ttl : option nat) (st : state C)
  : bool * state C :=
  if negb config.cache.enabled then (false, st)
  else
    let '(success, store') :=
      match ttl with
      | Some (S t) => nc_set key value (Some (S t)) (store st)
      | _ => nc_set key value None (store st)
      end in
    (success, {| store := store'; hits := hits st; misses := misses st |}).

Definition del (key : jsstring) (st : state C) : nat * state C :=
  let '(n, store') := nc_del key (store st) in
  (n, {| store := store'; hits := hits st; misses := misses st |}).

Definition flush (st : state C) : state C :=
  {| store := nc_flushAll (store st); hits := 0; misses := 0 |}.

Definition getStats (st : state C) : statistics :=
  {| stat_hits := hits st;
     stat_misses := misses st;
     stat_hitRate :=
       if 0 <? hits st + misses st
       then toFixed (Qnat (hits st) / Qnat (hits st + misses st) * 100) 2 ++ lit "%"
       else lit "0%";
     stat_keys := length (nc_keys (store st));
     stat_size := nc_getStats (store st) |}.

End Wrapper.

Definition generateSearchKey (query : jsstring) (options : Options) : jsstring :=
  let optionsStr := JSON_stringify options in
  lit "search:" ++ query ++ lit ":" ++ optionsStr.

End searchCache.

(** ** Search orchestrator ([advanced_search.js], lines 141-244) *)

(** The database handle: [db.all(sql, params)] answers the rows or
    rejects. *)
Class Database : Type := {
  db_all : jsstring -> list jsstring -> outcome (list book)
}.

(** [{ ...book, score }] *)
Record scoredBook : Type := {
  the_book : book;
  score : Q
}.

(** An element of a result: a scored book, or the bare row of the
    exact-identifier shortcut, which carries no [score]. *)
Record entry : Type := {
  entry_book : book;
  entry_score : option Q
}.

Definition bare (b : book) : entry :=
  {| entry_book := b; entry_score := None |}.

Definition scored (s : scoredBook) : entry :=
  {| entry_book := the_book s; entry_score := Some (score s) |}.

(** A string or [null] in a condition: [null] and the empty string are
    falsy. *)
Definition truthy (v : option jsstring) : option jsstring :=
  match v with
  | Some (c :: s) => Some (c :: s)
  | _ => None
  end.

Definition baseQuery : jsstring := lit "
      SELECT id, file_path, emergency_file_path, book_name, author_name, 
             category, request_count, total_requests
      FROM usol_books
      WHERE 1=1
    ".

(** Lines 167-183: the statement and its parameters, extended by the
    filters the options ask for. *)
Definition buildQuery (category author : option jsstring) : jsstring * list jsstring :=
  let sqlQuery := baseQuery in
  let params := [] in
  let '(sqlQuery, params) :=
    match truthy category with
    | Some c => (sqlQuery ++ lit " AND category = ?", params ++ [c])
    | None => (sqlQuery, params)
    end in
  let '(sqlQuery, params) :=
    match truthy author with
    | Some a => (sqlQuery ++ lit " AND author_name LIKE ?",
                 params ++ [lit "%" ++ a ++ lit "%"])
    | None => (sqlQuery, params)
    end in
  (sqlQuery, params).

Section Orchestrator.
Context `{Host} `{Database} {C : Type} `{NodeCache (list entry) C}.

(** The three comparators handed to [sort]. *)
Definition byPopularity (a b : scoredBook) : Q :=
  inject_Z (request_count (the_book b) - request_count (the_book a)).

(** [a.book_name.localeCompare(b.book_name)]. Both names are strings when
    the sort runs: [scoreBook] has dereferenced the name of every candidate
    and would have thrown on a [null]. *)
Definition byName (a b : scoredBook) : Q :=
  match book_name (the_book a), book_name (the_book b) with
  | Some x, Some y => inject_Z (localeCompare x y)
  | _, _ => 0
  end.

Definition byRelevance (a b : scoredBook) : Q := score b - score a.

(** The exact-identifier lookup of the numeric shortcut. *)
Definition exactMatch (normalizedQuery : jsstring) (allBooks : list book) : option book :=
  if test_digits normalizedQuery
  then find (fun b => (id b =? parseInt normalizedQuery)%Z) allBooks
  else None.

Definition advancedSearch (query : jsstring) (options : Options)
    (st : searchCache.state C) : outcome (list entry) * searchCache.state C :=
  let category := get_category options in
  let author := get_author options in
  let sortBy := get_sortBy options in
  let limit := get_limit options in
  let normalizedQuery := convertToEnglishDigits (normalizePersianArabicChars query) in
  let cacheKey := searchCache.generateSearchKey normalizedQuery options in
  let '(cachedResult, st) := searchCache.get cacheKey st in
  match cachedResult with
  | Some cached => (Return cached, st)
  | None =>
      let '(sqlQuery, params) := buildQuery category author in
      match db_all sqlQuery params with
      | Throw error => (Throw error, st)
      | Return allBooks =>
          if length allBooks =? 0 then (Return [], st)
          else
            match exactMatch normalizedQuery allBooks with
            | Some found =>
                let result := [bare found] in
                let '(_, st) := searchCache.set cacheKey result None st in
                (Return result, st)
            | None =>
                match
                  map_throwing
                    (fun b =>
                       do s <- scoreBook b normalizedQuery;
                       Return {| the_book := b; score := s |})
                    allBooks
                with
                | Throw error => (Throw error, st)
                | Return scoredBooks =>
                    let threshold := config.search.fuzzyThreshold in
                    let filteredBooks :=
                      List.filter (fun b => Qle_bool threshold (score b)) scoredBooks in
                    let filteredBooks :=
                      if bool_decide (sortBy = lit "popularity")
                      then sort byPopularity filteredBooks
                      else if bool_decide (sortBy = lit "name")
                      then sort byName filteredBooks
                      else sort byRelevance filteredBooks in
                    let results := List.map scored (slice0 filteredBooks limit) in
                    let '(_, st) := searchCache.set cacheKey results None st in
                    (Return results, st)
                end
            end
      end
  end.

End Orchestrator.

(** ** Auxiliary definitions for the proofs *)

(** What the seven replacements of [normalizePersianArabicChars] do to one
    code unit. *)
Definition foldChar (c : N) : N :=
  let r (pats : list N) (t : N) (c : N) := if existsb (N.eqb c) pats then t else c in
  (r [0x629] 0x647
  (r [0x625; 0x623; 0x622] 0x627
  (r [0x624] 0x648
  (r [0x626] 0x64A
  (r [0x649] 0x64A
  (r [0x6CC] 0x64A
  (r [0x6A9] 0x643 c)))))))%N.

(** What [convertToEnglishDigits] does to one code unit. *)
Definition foldDigit (c : N) : N :=
  match convert_step c with
  | [d] => d
  | _ => c
  end.

(** A string is left-trimmed when it does not start with white space. *)
Definition leftTrimmed (s : jsstring) : Prop :=
  match s with
  | [] => True
  | c :: _ => isWhiteSpace c = false
  end.

(** Every code unit the normalizer treats specially. *)
Definition special : list N :=
  arabicDigits ++ persianDigits ++
  [0x6A9; 0x6CC; 0x649; 0x626; 0x624; 0x625; 0x623; 0x622; 0x629]%N.

(** The recurrence the table of [levenshteinDistance] is filled by: the
    value of cell [(i, j)]. *)
Fixpoint lev (s1 s2 : jsstring) (i : nat) {struct i} : nat -> nat :=
  match i with
  | 0 => fun j => j
  | S i' =>
      fix row (j : nat) : nat :=
        match j with
        | 0 => S i'
        | S j' =>
            if bool_decide (s1 !! i' = s2 !! j') then lev s1 s2 i' j'
            else min3 (lev s1 s2 i' (S j')) (row j') (lev s1 s2 i' j') + 1
        end
  end.

(** A table of [m + 1] rows of [n + 1] cells. *)
Definition shaped (m n : nat) (dp : table) : Prop :=
  length dp = m + 1 /\ Forall (fun row => length row = n + 1) dp.

(** The cells selected by [sel] hold the values of the recurrence. *)
Definition filled (s1 s2 : jsstring) (m n : nat) (sel : nat -> nat -> Prop)
    (dp : table) : Prop :=
  forall i j, i <= m -> j <= n -> sel i j -> tget dp i j = lev s1 s2 i j.

(** The rows the orchestrator fetches for the given options. *)
Definition fetchCandidates `{Database} (options : Options) : outcome (list book) :=
  let '(sqlQuery, params) := buildQuery (get_category options) (get_author options) in
  db_all sqlQuery params.

(** The scoring pass of line 204. *)
Definition scoreAll `{Host} (normalizedQuery : jsstring) (allBooks : list book)
  : outcome (list scoredBook) :=
  map_throwing
    (fun b =>
       do s <- scoreBook b normalizedQuery;
       Return {| the_book := b; score := s |})
    allBooks.

(** The comparator the sort mode selects (lines 214-221). *)
Definition comparatorOf `{Host} (sortBy : jsstring) : scoredBook -> scoredBook -> Q :=
  if bool_decide (sortBy = lit "popularity") then byPopularity
  else if bool_decide (sortBy = lit "name") then byName
  else byRelevance.


(** ** A small host, database and store to run the engine on *)

Definition asciiLower (c : N) : N :=
  if (65 <=? c)%N && (c <=? 90)%N then (c + 32)%N else c.

(** Comparison of code units, position by position. *)
Fixpoint lexCompare (a b : jsstring) : Z :=
  match a, b with
  | [], [] => 0
  | [], _ :: _ => -1
  | _ :: _, [] => 1
  | x :: a', y :: b' =>
      if (x <? y)%N then -1
      else if (y <? x)%N then 1
      else lexCompare a' b'
  end.

Definition asciiHost : Host :=
  {| toLowerCase := List.map asciiLower; localeCompare := lexCompare |}.

(** A database holding [rows], whatever the filter. *)
Definition tableOf (rows : list book) : Database :=
  {| db_all := fun _ _ => Return rows |}.

(** A store that keeps at most [config.cache.maxKeys] keys and never
    expires them. *)
Definition mapStore (V : Type) : NodeCache V (gmap (list N) V) :=
  {| nc_get := fun key s => (s !! key, s);
     nc_set := fun key value _ s =>
       if decide (config.cache.maxKeys <= size s) then (false, s)
       else (true, <[key := value]> s);
     nc_del := fun key s =>
       (match s !! key with Some _ => 1 | None => 0 end, delete key s);
     nc_flushAll := fun _ => ∅;
     nc_keys := fun s => (map_to_list s).*1;
     nc_getStats := fun s =>
       {| nc_hits := 0; nc_misses := 0; nc_keycount := size s;
          nc_ksize := 0; nc_vsize := 0 |} |}.

Definition emptyCache : searchCache.state (gmap (list N) (list entry)) :=
  {| searchCache.store := ∅; searchCache.hits := 0; searchCache.misses := 0 |}.

Definition mkBook (i : Z) (name author : option jsstring) (requests : Z) : book :=
  {| id := i; file_path := None; emergency_file_path := None;
     book_name := name; author_name := author; category := None;
     request_count := requests; total_requests := requests |}.

(** Three well-formed rows and one whose name is missing. *)
Definition book1 : book := mkBook 1 (Some (lit "logic")) (Some (lit "ali")) 5.
Definition book2 : book := mkBook 2 (Some (lit "logic primer")) (Some (lit "omar")) 50.
Definition book42 : book := mkBook 42 (Some (lit "zzzz")) (Some (lit "yyyy")) 0.
Definition malformed : book := mkBook 7 None (Some (lit "omar")) 3.

Definition rows : list book := [book1; book2; book42].

(** One search on the small setting. *)
Definition run (rows : list book) (query : jsstring) (options : Options)
  : outcome (list entry) * searchCache.state (gmap (list N) (list entry)) :=
  @advancedSearch asciiHost (tableOf rows) _ (mapStore (list entry))
    query options emptyCache.

(** The key of a search, the ranking of the scored candidates, and the
    three orders a result can be in. *)
Definition cacheKeyOf (query : jsstring) (options : Options) : jsstring :=
  searchCache.generateSearchKey (normalize query) options.

Definition passing (scoredBooks : list scoredBook) : list scoredBook :=
  List.filter (fun b => Qle_bool config.search.fuzzyThreshold (score b)) scoredBooks.

Definition rank `{Host} (options : Options) (scoredBooks : list scoredBook) : list entry :=
  List.map scored
    (slice0 (sort (comparatorOf (get_sortBy options)) (passing scoredBooks))
            (get_limit options)).





Definition wellFormed (b : book) : Prop :=
  is_Some (book_name b) /\ is_Some (author_name b).

(** Two option objects hold the same fields with the same values when one
    lists the properties of the other, in any order. *)
Definition sameFields (o1 o2 : Options) : Prop := Permutation o1 o2.





(** ** Edit scripts *)

(** An alignment of [a] with [b], read from left to right as the table of
    [levenshteinDistance] is filled: [n] counts the columns that delete a
    character of [a], insert a character of [b] or put one character in
    place of another; a column that keeps a character costs nothing. *)
Inductive alignment : list N -> list N -> nat -> Prop :=
| align_nil : alignment [] [] 0
| align_delete a b n x :
    alignment a b n -> alignment (a ++ [x]) b (S n)
| align_insert a b n y :
    alignment a b n -> alignment a (b ++ [y]) (S n)
| align_substitute a b n x y :
    alignment a b n -> alignment (a ++ [x]) (b ++ [y]) (S n)
| align_keep a b n x :
    alignment a b n -> alignment (a ++ [x]) (b ++ [x]) n.

(** One single-character operation anywhere in the string: an insertion,
    a deletion or a substitution. *)
Inductive one_edit : list N -> list N -> Prop :=
| edit_insert u v x : one_edit (u ++ v) (u ++ x :: v)
| edit_delete u v x : one_edit (u ++ x :: v) (u ++ v)
| edit_substitute u v x y : one_edit (u ++ x :: v) (u ++ y :: v).

(** [edits s t n]: [t] is reached from [s] by [n] single-character
    operations, one after the other. *)
Inductive edits : list N -> list N -> nat -> Prop :=
| edits_done s : edits s s 0
| edits_step s t u n : one_edit s t -> edits t u n -> edits s u (S n).

(** ** Sequences of cache calls *)

(** A call of the cache module, its answer dropped. *)
Inductive call (V : Type) : Type :=
| call_get (key : list N)
| call_set (key : list N) (value : V) (ttl : option nat)
| call_del (key : list N)
| call_flush.
Arguments call_get {V} key.
Arguments call_set {V} key value ttl.
Arguments call_del {V} key.
Arguments call_flush {V}.

Definition perform {V C : Type} `{NodeCache V C} (c : call V)
    (st : searchCache.state C) : searchCache.state C :=
  match c with
  | call_get key => snd (searchCache.get key st)
  | call_set key value ttl => snd (searchCache.set key value ttl st)
  | call_del key => snd (searchCache.del key st)
  | call_flush => searchCache.flush st
  end.

Definition performAll {V C : Type} `{NodeCache V C} (calls : list (call V))
    (st : searchCache.state C) : searchCache.state C :=
  foldl (fun st c => perform c st) st calls.

(** The lookups counted after the calls, [n] having been counted before:
    a [get] adds one, a [flush] starts again from zero. *)
Definition lookupsCounted {V : Type} (calls : list (call V)) (n : nat) : nat :=
  foldl (fun n c =>
           match c with
           | call_get _ => n + 1
           | call_flush => 0
           | _ => n
           end) n calls.

(** The store honours a successful write: the key then reads back the
    value. *)
Definition readsBack {V C : Type} `{NodeCache V C} : Prop :=
  forall key value s s',
    nc_set key value None s = (true, s') -> fst (nc_get key s') = Some value.

(** The options the search handler passes. *)
Definition defaultOptions : Options := [p_sortBy (lit "relevance"); p_limit 10].

(** ** Digit folding, stated by ranges *)

(** The ASCII digit of the same value for a code unit of the Arabic-Indic
    block U+0660..U+0669 or of the Persian block U+06F0..U+06F9; every
    other code unit as it is. *)
Definition asciiDigitOf (c : N) : N :=
  if (0x660 <=? c)%N && (c <=? 0x669)%N then (c - 0x660 + 48)%N
  else if (0x6F0 <=? c)%N && (c <=? 0x6F9)%N then (c - 0x6F0 + 48)%N
  else c.

(** ** Input validation ([validators.js], lines 10-62) *)

(** The Unicode data the engine needs: the code points with the [Emoji]
    property, which [/\p{Emoji}/u] tests. *)
Class Unicode : Type := {
  emojiProperty : N -> bool
}.

(** The code points of a string, as a regular expression with the [u]
    flag reads them: a surrogate pair is one code point. *)
Fixpoint codePoints (s : list N) : list N :=
  match s with
  | [] => []
  | c :: s' =>
      if isHighSurrogate c then
        match s' with
        | d :: s'' =>
            if isLowSurrogate d
            then (0x10000 + (c - 0xD800) * 0x400 + (d - 0xDC00))%N :: codePoints s''
            else c :: codePoints s'
        | [] => [c]
        end
      else c :: codePoints s'
  end.

(** [/[A-Za-z]/] on one code unit. *)
Definition isAsciiLetter (c : N) : bool :=
  ((65 <=? c)%N && (c <=? 90)%N) || ((97 <=? c)%N && (c <=? 122)%N).

(** The text replied at line 14 of [validators.js]. *)
Definition replyLetters : list N :=
  [0x274c; 0x20; 0x3c; 0x62; 0x3e; 0x62e; 0x637; 0x623; 0x3c; 0x2f; 0x62;
   0x3e; 0x3a; 0x20; 0x64a; 0x64f; 0x631; 0x62c; 0x649; 0x20; 0x627;
   0x633; 0x62a; 0x62e; 0x62f; 0x627; 0x645; 0x20; 0x627; 0x644; 0x623;
   0x62d; 0x631; 0x641; 0x20; 0x627; 0x644; 0x641; 0x627; 0x631; 0x633;
   0x64a; 0x629; 0x20; 0x623; 0x648; 0x20; 0x627; 0x644; 0x639; 0x631;
   0x628; 0x64a; 0x629; 0x20; 0x641; 0x642; 0x637; 0x2e]%N.

(** The text replied at line 27 of [validators.js]. *)
Definition replyTooLong : list N :=
  [0x274c; 0x20; 0x3c; 0x62; 0x3e; 0x62e; 0x637; 0x623; 0x3c; 0x2f; 0x62;
   0x3e; 0x3a; 0x20; 0x627; 0x644; 0x646; 0x635; 0x20; 0x627; 0x644;
   0x645; 0x64f; 0x62f; 0x62e; 0x644; 0x20; 0x623; 0x637; 0x648; 0x644;
   0x20; 0x645; 0x646; 0x20; 0x627; 0x644; 0x62d; 0x62f; 0x651; 0x20;
   0x627; 0x644; 0x645; 0x633; 0x645; 0x648; 0x62d; 0x20; 0x628; 0x647;
   0x3c; 0x62; 0x3e; 0x28; 0x627; 0x644; 0x62d; 0x62f; 0x20; 0x627;
   0x644; 0x623; 0x642; 0x635; 0x649; 0x20; 0x34; 0x30; 0x20; 0x62d;
   0x631; 0x641; 0x64b; 0x627; 0x29; 0x3c; 0x2f; 0x62; 0x3e; 0x2e]%N.

(** The text replied at line 40 of [validators.js]. *)
Definition replyEmoji : list N :=
  [0x274c; 0x20; 0x3c; 0x62; 0x3e; 0x62e; 0x637; 0x623; 0x3c; 0x2f; 0x62;
   0x3e; 0x3a; 0x20; 0x627; 0x644; 0x646; 0x635; 0x20; 0x627; 0x644;
   0x645; 0x64f; 0x62f; 0x62e; 0x644; 0x20; 0x64a; 0x62d; 0x62a; 0x648;
   0x64a; 0x20; 0x639; 0x644; 0x649; 0x20; 0x627; 0x64a; 0x645; 0x648;
   0x62c; 0x64a; 0x60c; 0x20; 0x64a; 0x64f; 0x631; 0x62c; 0x649; 0x20;
   0x625; 0x62f; 0x62e; 0x627; 0x644; 0x20; 0x646; 0x635; 0x648; 0x635;
   0x20; 0x641; 0x642; 0x637; 0x2e]%N.

(** The text replied at line 50 of [validators.js]. *)
Definition replyMedia : list N :=
  [0x274c; 0x20; 0x3c; 0x62; 0x3e; 0x62e; 0x637; 0x623; 0x3c; 0x2f; 0x62;
   0x3e; 0x3a; 0x20; 0x644; 0x627; 0x20; 0x64a; 0x64f; 0x633; 0x645;
   0x62d; 0x20; 0x628; 0x625; 0x631; 0x633; 0x627; 0x644; 0x20; 0x627;
   0x644; 0x635; 0x648; 0x631; 0x20; 0x623; 0x648; 0x20; 0x627; 0x644;
   0x641; 0x64a; 0x62f; 0x64a; 0x648; 0x20; 0x623; 0x648; 0x20; 0x627;
   0x644; 0x645; 0x644; 0x641; 0x627; 0x62a; 0x20; 0x641; 0x64a; 0x20;
   0x647; 0x630; 0x627; 0x20; 0x627; 0x644; 0x628; 0x62d; 0x62b; 0x2e]%N.

(** A value in the metadata object of a log entry. *)
Inductive metaValue : Type :=
| meta_number (n : Z)
| meta_string (s : list N).

(** What a call leaves behind: a reply sent to the chat, a warning
    logged. *)
Inductive effect : Type :=
| Replied (text : list N)
| LoggedWarning (message : list N) (meta : list (list N * metaValue)).

(** The Telegraf context as [validateUserInput] uses it: the sender, the
    media fields of the message (present or not) and [ctx.reply], which
    resolves ([None]) or rejects. *)
Record context : Type := {
  from_id : Z;
  message_photo : bool;
  message_video : bool;
  message_document : bool;
  reply : list N -> option exn
}.

(** The three statements every rejection is made of: reply, log, return
    [false]. A rejected reply leaves the function before the log. *)
Definition reject (ctx : context) (text : list N) (message : list N)
    (meta : list (list N * metaValue)) : outcome bool * list effect :=
  match reply ctx text with
  | Some error => (Throw error, [])
  | None => (Return false, [Replied text; LoggedWarning message meta])
  end.

Definition validateUserInput `{Unicode} (ctx : context) (userInput : list N)
  : outcome bool * list effect :=
  if existsb isAsciiLetter userInput then
    reject ctx replyLetters (lit "User input contains English letters")
      [(lit "userId", meta_number (from_id ctx)); (lit "input", meta_string userInput)]
  else if 37 <? length userInput then
    reject ctx replyTooLong (lit "User input too long")
      [(lit "userId", meta_number (from_id ctx));
       (lit "length", meta_number (Z.of_nat (length userInput)))]
  else if existsb emojiProperty (codePoints userInput) then
    reject ctx replyEmoji (lit "User input contains emoji")
      [(lit "userId", meta_number (from_id ctx))]
  else if message_photo ctx || message_video ctx || message_document ctx then
    reject ctx replyMedia (lit "User sent media instead of text")
      [(lit "userId", meta_number (from_id ctx))]
  else (Return true, []).

(** ** HTML escaping ([validators.js], lines 112-120; [index.js]) *)

(** [s.replace(/c/g, r)] for a one-character pattern and a replacement
    text without [$]. *)
Definition replaceAll (c : N) (r : list N) (s : list N) : list N :=
  flat_map (fun x => if (x =? c)%N then r else [x]) s.

Definition escapeHtml (text : list N) : list N :=
  replaceAll 39 (lit "&#039;")
    (replaceAll 34 (lit "&quot;")
       (replaceAll 62 (lit "&gt;")
          (replaceAll 60 (lit "&lt;")
             (replaceAll 38 (lit "&amp;") text)))).

(** [sanitizeHtml]: the same chain, behind a guard for a missing or empty
    text. *)
Definition sanitizeHtml (text : option (list N)) : list N :=
  match truthy text with
  | None => []
  | Some t =>
      replaceAll 39 (lit "&#039;")
        (replaceAll 34 (lit "&quot;")
           (replaceAll 62 (lit "&gt;")
              (replaceAll 60 (lit "&lt;")
                 (replaceAll 38 (lit "&amp;") t))))
  end.

(** What the chain does to one code unit. *)
Definition escapeChar (c : N) : list N :=
  if (c =? 38)%N then lit "&amp;"
  else if (c =? 60)%N then lit "&lt;"
  else if (c =? 62)%N then lit "&gt;"
  else if (c =? 34)%N then lit "&quot;"
  else if (c =? 39)%N then lit "&#039;"
  else [c].

(** ** Truncation of titles ([list_books.js]) *)

(** [text.substring(0, e)]: a negative end counts as zero, an end past the
    text as its length. *)
Definition substring0 (text : list N) (e : Z) : list N := firstn (Z.to_nat e) text.

Definition truncateText (text : list N) (maxLength : Z) : list N :=
  if (maxLength <? Z.of_nat (length text))%Z
  then substring0 text (maxLength - 2) ++ lit ".."
  else text.

(** ** Search by several fields ([advanced_search.js], lines 322-367) *)

Record criteria : Type := {
  bookName : option (list N);
  authorName : option (list N);
  criteria_category : option (list N);
  minParts : option Z;
  maxParts : option Z
}.

(** A number or [undefined] in a condition: [undefined] and zero are
    falsy. *)
Definition truthyNumber (v : option Z) : option Z :=
  match v with
  | Some n => if (n =? 0)%Z then None else Some n
  | None => None
  end.

(** [s.split(sep)] for a one-character separator. *)
Fixpoint split (sep : N) (s : list N) : list (list N) :=
  match s with
  | [] => [[]]
  | c :: s' =>
      if (c =? sep)%N then [] :: split sep s'
      else
        match split sep s' with
        | piece :: pieces => (c :: piece) :: pieces
        | [] => [[c]]
        end
  end.

(** [book.file_path ? book.file_path.split("|").length : 0] *)
Definition partsCount (b : book) : nat :=
  match truthy (file_path b) with
  | Some path => length (split 124 path)
  | None => 0
  end.

(** The predicate of the [filter] of lines 351-358. *)
Definition partsFilter (minParts maxParts : option Z) (b : book) : bool :=
  match truthyNumber minParts with
  | Some lo => if (Z.of_nat (partsCount b) <? lo)%Z then false
               else match truthyNumber maxParts with
                    | Some hi => negb (hi <? Z.of_nat (partsCount b))%Z
                    | None => true
                    end
  | None => match truthyNumber maxParts with
            | Some hi => negb (hi <? Z.of_nat (partsCount b))%Z
            | None => true
            end
  end.

(** The statement and the parameters of lines 327-343. *)
Definition multiFieldQuery (c : criteria) : list N * list (list N) :=
  let query := lit "SELECT * FROM usol_books WHERE 1=1" in
  let params := [] in
  let '(query, params) :=
    match truthy (bookName c) with
    | Some name => (query ++ lit " AND book_name LIKE ?",
                    params ++ [lit "%" ++ normalizePersianArabicChars name ++ lit "%"])
    | None => (query, params)
    end in
  let '(query, params) :=
    match truthy (authorName c) with
    | Some name => (query ++ lit " AND author_name LIKE ?",
                    params ++ [lit "%" ++ normalizePersianArabicChars name ++ lit "%"])
    | None => (query, params)
    end in
  let '(query, params) :=
    match truthy (criteria_category c) with
    | Some cat => (query ++ lit " AND category = ?", params ++ [cat])
    | None => (query, params)
    end in
  (query, params).

(** [multiFieldSearch]: a rejected query is logged and answered by the
    empty list. *)
Definition multiFieldSearch `{Database} (c : criteria) : list book :=
  let '(query, params) := multiFieldQuery c in
  match db_all query params with
  | Return books =>
      let filteredBooks :=
        match truthyNumber (minParts c), truthyNumber (maxParts c) with
        | None, None => books
        | _, _ => List.filter (partsFilter (minParts c) (maxParts c)) books
        end in
      filteredBooks
  | Throw error => []
  end.

(** A small table of [Emoji] code points for running the validator: the
    ASCII digits, [#] and [*], which carry the property, and the
    pictographs from U+1F300 to U+1FAFF. *)
Definition sampleUnicode : Unicode :=
  {| emojiProperty := fun c =>
       isDigit c || (c =? 35)%N || (c =? 42)%N ||
       ((0x1F300 <=? c)%N && (c <=? 0x1FAFF)%N) |}.

(** A text message whose replies always go through. *)
Definition textMessage : context :=
  {| from_id := 7; message_photo := false; message_video := false;
     message_document := false; reply := fun _ => None |}.

(** * Properties *)

(** ** The normalizer *)

Lemma existsb_eqb_elem (c : N) (l : list N) :
  existsb (N.eqb c) l = true <-> c ∈ l.
Proof.
  induction l as [|d l IH]; simpl.
  - split; [discriminate | intros Hin; inversion Hin].
  - rewrite orb_true_iff, IH, elem_of_cons, N.eqb_eq. tauto.
Qed.

Lemma existsb_eqb_notin (c : N) (l : list N) :
  c ∉ l -> existsb (N.eqb c) l = false.
Proof.
  intros Hn. destruct (existsb (N.eqb c) l) eqn:E; [|reflexivity].
  apply existsb_eqb_elem in E. contradiction.
Qed.

Lemma startsWith_single (s : jsstring) (c : N) :
  startsWith s [c] = match s with d :: _ => (d =? c)%N | [] => false end.
Proof. destruct s as [|d s]; simpl; [reflexivity|]. destruct s; apply andb_true_r. Qed.

Lemma indexOf_from_absent (c : N) (s : jsstring) (i : Z) :
  c ∉ s -> indexOf_from i s [c] = (-1)%Z.
Proof.
  revert i. induction s as [|d s IH]; intros i Hn; [reflexivity|].
  apply not_elem_of_cons in Hn as [Hne Hn].
  cbn [indexOf_from]. rewrite startsWith_single.
  destruct (N.eqb_spec d c) as [->|_]; [congruence|].
  apply IH; assumption.
Qed.

Lemma convert_step_other (c : N) :
  c ∉ special -> convert_step c = [c].
Proof.
  intros Hn. unfold special in Hn.
  rewrite !not_elem_of_app in Hn. destruct Hn as (Ha & Hp & _).
  unfold convert_step, indexOf.
  rewrite (indexOf_from_absent c arabicDigits 0 Ha).
  rewrite (indexOf_from_absent c persianDigits 0 Hp). reflexivity.
Qed.

Lemma foldDigit_other (c : N) : c ∉ special -> foldDigit c = c.
Proof. intros Hn. unfold foldDigit. rewrite convert_step_other; auto. Qed.

Lemma foldChar_other (c : N) : c ∉ special -> foldChar c = c.
Proof.
  intros Hn. unfold special in Hn.
  rewrite !not_elem_of_app in Hn. destruct Hn as (_ & _ & Hl).
  rewrite !not_elem_of_cons in Hl.
  destruct Hl as (H1 & H2 & H3 & H4 & H5 & H6 & H7 & H8 & H9 & _).
  unfold foldChar; simpl.
  repeat match goal with
  | Hne : c <> ?k |- context [N.eqb c ?k] =>
      rewrite (proj2 (N.eqb_neq c k) Hne); simpl
  end.
  reflexivity.
Qed.

(** A property of code units holds everywhere once it holds on the special
    ones (checked by evaluation) and on those every fold leaves alone. *)
Lemma by_special (P : N -> bool) :
  forallb P special = true ->
  (forall c, c ∉ special -> P c = true) ->
  forall c, P c = true.
Proof.
  intros Hs Ho c. destruct (decide (c ∈ special)) as [Hin|Hout].
  - rewrite forallb_forall in Hs. apply Hs. apply list_elem_of_In, Hin.
  - apply Ho, Hout.
Qed.

Lemma convert_step_single (c : N) : convert_step c = [foldDigit c].
Proof.
  apply (proj1 (bool_decide_eq_true _)).
  revert c. apply (by_special (fun c => bool_decide (convert_step c = [foldDigit c]))).
  - vm_compute. reflexivity.
  - intros c Hn. apply bool_decide_eq_true.
    rewrite foldDigit_other, convert_step_other; auto.
Qed.

Lemma convertToEnglishDigits_map (s : jsstring) :
  convertToEnglishDigits s = List.map foldDigit s.
Proof.
  unfold convertToEnglishDigits.
  enough (forall acc, fold_left (fun o c => o ++ convert_step c) s acc
                      = acc ++ List.map foldDigit s) as E by apply (E []).
  induction s as [|c s IH]; intros acc; simpl.
  - symmetry. apply app_nil_r.
  - rewrite IH, convert_step_single, <- app_assoc. reflexivity.
Qed.

Lemma replace_chain_map (s : jsstring) :
  (replace_g [0x629] 0x647
  (replace_g [0x625; 0x623; 0x622] 0x627
  (replace_g [0x624] 0x648
  (replace_g [0x626] 0x64A
  (replace_g [0x649] 0x64A
  (replace_g [0x6CC] 0x64A
  (replace_g [0x6A9] 0x643 s)))))))%N = List.map foldChar s.
Proof. unfold replace_g. rewrite !List.map_map. reflexivity. Qed.

Lemma normalizePersianArabicChars_map (s : jsstring) :
  normalizePersianArabicChars s = trim (List.map foldChar s).
Proof. unfold normalizePersianArabicChars. rewrite replace_chain_map. reflexivity. Qed.

Lemma isWhiteSpace_other (c : N) (f : N -> N) :
  (forall c, c ∉ special -> f c = c) ->
  forallb (fun c => Bool.eqb (isWhiteSpace (f c)) (isWhiteSpace c)) special = true ->
  isWhiteSpace (f c) = isWhiteSpace c.
Proof.
  intros Hf Hs. apply eqb_prop.
  revert c. apply by_special; [exact Hs|].
  intros c Hn. rewrite Hf by assumption. apply eqb_reflx.
Qed.

Lemma isWhiteSpace_foldChar (c : N) : isWhiteSpace (foldChar c) = isWhiteSpace c.
Proof. apply isWhiteSpace_other; [apply foldChar_other | vm_compute; reflexivity]. Qed.

Lemma isWhiteSpace_foldDigit (c : N) : isWhiteSpace (foldDigit c) = isWhiteSpace c.
Proof. apply isWhiteSpace_other; [apply foldDigit_other | vm_compute; reflexivity]. Qed.

Lemma fold_absorb (c : N) : foldChar (foldDigit (foldChar c)) = foldDigit (foldChar c).
Proof.
  apply N.eqb_eq. revert c.
  apply (by_special (fun c => (foldChar (foldDigit (foldChar c)) =? foldDigit (foldChar c))%N)).
  - vm_compute. reflexivity.
  - intros c Hn. rewrite (foldChar_other c Hn), (foldDigit_other c Hn), (foldChar_other c Hn).
    apply N.eqb_refl.
Qed.

Lemma foldDigit_idem (c : N) : foldDigit (foldDigit c) = foldDigit c.
Proof.
  apply N.eqb_eq. revert c.
  apply (by_special (fun c => (foldDigit (foldDigit c) =? foldDigit c)%N)).
  - vm_compute. reflexivity.
  - intros c Hn. rewrite !(foldDigit_other c Hn). apply N.eqb_refl.
Qed.

(** *** [trim] *)

Lemma trimStart_map (g : N -> N) (s : jsstring) :
  (forall c, isWhiteSpace (g c) = isWhiteSpace c) ->
  trimStart (List.map g s) = List.map g (trimStart s).
Proof.
  intros Hg. induction s as [|c s IH]; simpl; [reflexivity|].
  rewrite Hg. destruct (isWhiteSpace c); [exact IH | reflexivity].
Qed.

Lemma trimEnd_map (g : N -> N) (s : jsstring) :
  (forall c, isWhiteSpace (g c) = isWhiteSpace c) ->
  trimEnd (List.map g s) = List.map g (trimEnd s).
Proof.
  intros Hg. induction s as [|c s IH]; simpl; [reflexivity|].
  rewrite IH, Hg. destruct (trimEnd s); simpl; [|reflexivity].
  destruct (isWhiteSpace c); reflexivity.
Qed.

Lemma trim_map (g : N -> N) (s : jsstring) :
  (forall c, isWhiteSpace (g c) = isWhiteSpace c) ->
  trim (List.map g s) = List.map g (trim s).
Proof.
  intros Hg. unfold trim. rewrite trimStart_map, trimEnd_map by assumption.
  reflexivity.
Qed.

Lemma trimStart_leftTrimmed (s : jsstring) : leftTrimmed (trimStart s).
Proof.
  induction s as [|c s IH]; simpl; [exact I|].
  destruct (isWhiteSpace c) eqn:E; [exact IH | exact E].
Qed.

Lemma trimStart_fixed (s : jsstring) : leftTrimmed s -> trimStart s = s.
Proof. destruct s as [|c s]; simpl; [reflexivity|]. intros ->. reflexivity. Qed.

Lemma trimEnd_leftTrimmed (s : jsstring) : leftTrimmed s -> leftTrimmed (trimEnd s).
Proof.
  destruct s as [|c s]; simpl; [auto|]. intros E.
  destruct (trimEnd s); simpl; [rewrite E|]; exact E.
Qed.

Lemma trimEnd_idem (s : jsstring) : trimEnd (trimEnd s) = trimEnd s.
Proof.
  induction s as [|c s IH]; simpl; [reflexivity|].
  destruct (trimEnd s) as [|d r] eqn:E.
  - destruct (isWhiteSpace c) eqn:W; simpl; [reflexivity|]. rewrite W. reflexivity.
  - change (trimEnd (c :: d :: r)) with
      (match trimEnd (d :: r) with
       | [] => if isWhiteSpace c then [] else [c]
       | x => c :: x
       end).
    rewrite IH. reflexivity.
Qed.

Lemma trim_idem (s : jsstring) : trim (trim s) = trim s.
Proof.
  unfold trim.
  rewrite (trimStart_fixed (trimEnd (trimStart s))).
  - apply trimEnd_idem.
  - apply trimEnd_leftTrimmed, trimStart_leftTrimmed.
Qed.

Lemma normalize_map (s : jsstring) :
  normalize s = List.map foldDigit (trim (List.map foldChar s)).
Proof.
  unfold normalize.
  rewrite convertToEnglishDigits_map, normalizePersianArabicChars_map. reflexivity.
Qed.

(** Digit folding on the examples of the specification. *)
Example normalize_arabic_digits :
  normalize [0x661; 0x662; 0x663]%N = lit "123".
Proof. reflexivity. Qed.

Example normalize_persian_digits :
  normalize [0x6F4; 0x6F5; 0x6F6]%N = lit "456".
Proof. reflexivity. Qed.

Example normalize_mixed :
  normalize (lit " abc" ++ [0x661; 0x20]%N) = lit "abc1".
Proof. reflexivity. Qed.

Lemma foldChar_idem (c : N) : foldChar (foldChar c) = foldChar c.
Proof.
  apply N.eqb_eq. revert c.
  apply (by_special (fun c => (foldChar (foldChar c) =? foldChar c)%N)).
  - vm_compute. reflexivity.
  - intros c Hn. rewrite !(foldChar_other c Hn). apply N.eqb_refl.
Qed.

(** C7. The normalizer, the character folding of
    [normalizePersianArabicChars] (with its trim) followed by the digit
    folding of [convertToEnglishDigits], is idempotent: normalizing an
    already normalized string changes nothing, for every string. So is
    each of its two stages alone. *)
Theorem normalize_idempotent (s : jsstring) :
  normalize (normalize s) = normalize s /\
  normalizePersianArabicChars (normalizePersianArabicChars s)
    = normalizePersianArabicChars s /\
  convertToEnglishDigits (convertToEnglishDigits s) = convertToEnglishDigits s.
Proof.
  split; [|split].
  - rewrite !normalize_map.
    set (t := trim (List.map foldChar s)).
    assert (E1 : List.map foldChar (List.map foldDigit t) = List.map foldDigit t).
    { unfold t.
      rewrite <- !trim_map by auto using isWhiteSpace_foldDigit, isWhiteSpace_foldChar.
      f_equal. rewrite !List.map_map. apply List.map_ext, fold_absorb. }
    assert (E2 : trim (List.map foldDigit t) = List.map foldDigit t).
    { unfold t. rewrite <- (trim_map foldDigit) by apply isWhiteSpace_foldDigit.
      apply trim_idem. }
    rewrite E1, E2, List.map_map.
    apply List.map_ext, foldDigit_idem.
  - rewrite !normalizePersianArabicChars_map.
    rewrite <- (trim_map foldChar) by apply isWhiteSpace_foldChar.
    rewrite trim_idem, List.map_map. f_equal.
    apply List.map_ext, foldChar_idem.
  - rewrite !convertToEnglishDigits_map, List.map_map.
    apply List.map_ext, foldDigit_idem.
Qed.

(** ** The edit-distance table *)

Lemma lev_0_l (s1 s2 : jsstring) (j : nat) : lev s1 s2 0 j = j.
Proof. reflexivity. Qed.

Lemma lev_0_r (s1 s2 : jsstring) (i : nat) : lev s1 s2 i 0 = i.
Proof. destruct i; reflexivity. Qed.

Lemma lev_S_S (s1 s2 : jsstring) (i j : nat) :
  lev s1 s2 (S i) (S j) =
  if bool_decide (s1 !! i = s2 !! j) then lev s1 s2 i j
  else min3 (lev s1 s2 i (S j)) (lev s1 s2 (S i) j) (lev s1 s2 i j) + 1.
Proof. reflexivity. Qed.

Lemma tget_tset_eq (m n : nat) (dp : table) (i j v : nat) :
  shaped m n dp -> i <= m -> j <= n -> tget (tset dp i j v) i j = v.
Proof.
  intros [Hlen Hrows] Hi Hj. unfold tget, tset.
  destruct (dp !! i) as [row|] eqn:E.
  - rewrite list_lookup_insert_eq by (apply lookup_lt_Some in E; lia).
    simpl. rewrite list_lookup_insert_eq; [reflexivity|].
    rewrite Forall_forall in Hrows.
    rewrite (Hrows row) by (eapply list_elem_of_lookup_2; eauto).
    lia.
  - apply lookup_ge_None in E. lia.
Qed.

Lemma tget_tset_ne (dp : table) (i j v i' j' : nat) :
  (i, j) <> (i', j') -> tget (tset dp i j v) i' j' = tget dp i' j'.
Proof.
  intros Hne. unfold tget, tset.
  destruct (dp !! i) as [row|] eqn:E; [|reflexivity].
  destruct (decide (i = i')) as [<-|Hi].
  - rewrite list_lookup_insert_eq by (apply lookup_lt_Some in E; lia).
    rewrite E. simpl. apply f_equal, list_lookup_insert_ne. congruence.
  - rewrite list_lookup_insert_ne by assumption. reflexivity.
Qed.

Lemma shaped_tset (m n : nat) (dp : table) (i j v : nat) :
  shaped m n dp -> shaped m n (tset dp i j v).
Proof.
  intros [Hlen Hrows]. unfold tset.
  destruct (dp !! i) as [row|] eqn:E; [|split; assumption].
  split.
  - rewrite length_insert. exact Hlen.
  - apply Forall_insert; [exact Hrows|].
    rewrite length_insert. rewrite Forall_forall in Hrows. apply Hrows.
    eapply list_elem_of_lookup_2; eauto.
Qed.

Lemma shaped_initial (m n : nat) :
  shaped m n (replicate (m + 1) (replicate (n + 1) 0)).
Proof.
  split.
  - apply length_replicate.
  - apply Forall_replicate, length_replicate.
Qed.

(** The rule for a counting loop: an invariant indexed by the loop variable. *)
Lemma foldl_seq_invariant {A : Type} (P : nat -> A -> Prop) (f : A -> nat -> A)
    (len start : nat) (a : A) :
  P start a ->
  (forall k x, start <= k < start + len -> P k x -> P (S k) (f x k)) ->
  P (start + len) (foldl f a (seq start len)).
Proof.
  revert start a. induction len as [|len IH]; intros start a H0 Hstep; simpl.
  - rewrite Nat.add_0_r. exact H0.
  - replace (start + S len) with (S start + len) by lia.
    apply IH.
    + apply Hstep; [lia | exact H0].
    + intros k x Hk. apply Hstep. lia.
Qed.

Section Table.
Variables (str1 str2 : jsstring).
Let m := length str1.
Let n := length str2.

Local Abbreviation Filled := (filled str1 str2 m n).

(** Writing the value of the recurrence into cell [(i, j)] extends the
    filled region by that cell. *)
Lemma filled_tset (sel sel' : nat -> nat -> Prop) (dp : table) (i j : nat) :
  shaped m n dp ->
  Filled sel dp ->
  (forall i' j', sel' i' j' -> sel i' j' \/ (i', j') = (i, j)) ->
  Filled sel' (tset dp i j (lev str1 str2 i j)).
Proof.
  intros Hsh Hf Hsel i' j' Hi' Hj' Hs.
  destruct (decide ((i, j) = (i', j'))) as [E|E].
  - inversion E; subst i' j'. eapply tget_tset_eq; eauto.
  - rewrite tget_tset_ne by assumption.
    apply Hf; auto. destruct (Hsel i' j' Hs) as [?|E']; [assumption|].
    congruence.
Qed.

(** The body of the inner loop writes the recurrence's value. *)
Lemma inner_body_value (sel : nat -> nat -> Prop) (dp : table) (i j : nat) :
  1 <= i <= m -> 1 <= j <= n ->
  Filled sel dp ->
  sel (i - 1) j -> sel i (j - 1) -> sel (i - 1) (j - 1) ->
  (if bool_decide (str1 !! (i - 1) = str2 !! (j - 1))
   then tset dp i j (tget dp (i - 1) (j - 1))
   else tset dp i j
          (min3 (tget dp (i - 1) j) (tget dp i (j - 1))
                (tget dp (i - 1) (j - 1)) + 1))
  = tset dp i j (lev str1 str2 i j).
Proof.
  intros Hi Hj Hf H1 H2 H3.
  rewrite (Hf (i - 1) j), (Hf i (j - 1)), (Hf (i - 1) (j - 1)) by (auto; lia).
  destruct i as [|i]; [lia|]. destruct j as [|j]; [lia|].
  rewrite lev_S_S. simpl. rewrite !Nat.sub_0_r.
  destruct (bool_decide (str1 !! i = str2 !! j)); reflexivity.
Qed.

Lemma levenshteinDistance_lev :
  levenshteinDistance str1 str2 = lev str1 str2 m n.
Proof.
  unfold levenshteinDistance. fold m n.
  set (dp0 := replicate (m + 1) (replicate (n + 1) 0)).
  set (dp1 := foldl (fun dp i => tset dp i 0 i) dp0 (seq 0 (m + 1))).
  set (dp2 := foldl (fun dp j => tset dp 0 j j) dp1 (seq 0 (n + 1))).
  (* first column *)
  assert (H1 : shaped m n dp1 /\ Filled (fun i j => i < 0 + (m + 1) /\ j = 0) dp1).
  { apply (foldl_seq_invariant
             (fun k dp => shaped m n dp /\ Filled (fun i j => i < k /\ j = 0) dp)).
    - split; [apply shaped_initial|]. intros i j _ _ [Hlt _]. lia.
    - intros k dp Hk [Hsh Hf]. split; [apply shaped_tset, Hsh|].
      replace (tset dp k 0 k) with (tset dp k 0 (lev str1 str2 k 0))
        by (rewrite lev_0_r; reflexivity).
      eapply filled_tset; eauto.
      intros i' j' [Hlt ->]. destruct (decide (i' = k)) as [->|]; [auto|].
      left. split; [lia | reflexivity]. }
  destruct H1 as [Hsh1 Hf1].
  (* first row *)
  assert (H2 : shaped m n dp2 /\
               Filled (fun i j => j = 0 \/ (i = 0 /\ j < 0 + (n + 1))) dp2).
  { apply (foldl_seq_invariant
             (fun k dp => shaped m n dp /\
                          Filled (fun i j => j = 0 \/ (i = 0 /\ j < k)) dp)).
    - split; [exact Hsh1|]. intros i j Hi Hj [->|[_ Hlt]]; [|lia].
      apply Hf1; auto. split; [lia | reflexivity].
    - intros k dp Hk [Hsh Hf]. split; [apply shaped_tset, Hsh|].
      replace (tset dp 0 k k) with (tset dp 0 k (lev str1 str2 0 k))
        by reflexivity.
      eapply filled_tset; eauto.
      intros i' j' [->|[-> Hlt]]; [left; left; reflexivity|].
      destruct (decide (j' = k)) as [->|]; [auto|].
      left. right. split; [reflexivity | lia]. }
  destruct H2 as [Hsh2 Hf2].
  (* the rows, each from left to right *)
  set (body := fun (i : nat) (dp : table) (j : nat) =>
    if bool_decide (str1 !! (i - 1) = str2 !! (j - 1))
    then tset dp i j (tget dp (i - 1) (j - 1))
    else tset dp i j
           (min3 (tget dp (i - 1) j) (tget dp i (j - 1))
                 (tget dp (i - 1) (j - 1)) + 1)).
  change (tget (foldl (fun dp i => foldl (body i) dp (seq 1 n)) dp2 (seq 1 m)) m n
          = lev str1 str2 m n).
  assert (H3 : shaped m n (foldl (fun dp i => foldl (body i) dp (seq 1 n)) dp2 (seq 1 m)) /\
               Filled (fun i j => j = 0 \/ i < 1 + m)
                 (foldl (fun dp i => foldl (body i) dp (seq 1 n)) dp2 (seq 1 m))).
  { apply (foldl_seq_invariant
             (fun k dp => shaped m n dp /\ Filled (fun i j => j = 0 \/ i < k) dp)).
    - split; [exact Hsh2|]. intros i j Hi Hj Hs. apply Hf2; auto.
      destruct Hs as [->|Hlt]; [left; reflexivity|].
      right. split; lia.
    - intros i dp Hi [Hsh Hf].
      assert (Hrow : shaped m n (foldl (body i) dp (seq 1 n)) /\
                     Filled (fun i' j' => j' = 0 \/ i' < i \/ (i' = i /\ j' < 1 + n))
                       (foldl (body i) dp (seq 1 n))).
      { apply (foldl_seq_invariant
                 (fun k dp => shaped m n dp /\
                    Filled (fun i' j' => j' = 0 \/ i' < i \/ (i' = i /\ j' < k)) dp)).
        - split; [exact Hsh|]. intros i' j' Hi' Hj' Hs. apply Hf; auto.
          destruct Hs as [?|[?|[_ ?]]]; [left; assumption | right; assumption | left; lia].
        - intros j dp' Hj [Hsh' Hf']. unfold body.
          rewrite (inner_body_value _ dp' i j ltac:(lia) ltac:(lia) Hf')
            by (right; lia || (left; lia)).
          split; [apply shaped_tset, Hsh'|].
          eapply filled_tset; eauto.
          intros i' j' Hs.
          destruct (decide ((i', j') = (i, j))) as [?|Hne]; [right; assumption|].
          left. destruct Hs as [?|[?|[-> Hlt]]]; [auto | auto |].
          right; right. split; [reflexivity|].
          assert (j' <> j) by congruence. lia. }
      destruct Hrow as [Hshr Hfr]. split; [exact Hshr|].
      intros i' j' Hi' Hj' Hs. apply Hfr; auto.
      destruct Hs as [?|Hlt]; [left; assumption|].
      right. destruct (decide (i' = i)) as [->|]; [right; split; [reflexivity | lia]|].
      left. lia. }
  destruct H3 as [_ Hf3]. apply Hf3; [lia | lia |]. right. lia.
Qed.

End Table.

Lemma lev_le_max (s1 s2 : jsstring) (i j : nat) :
  lev s1 s2 i j <= Nat.max i j.
Proof.
  revert j. induction i as [|i IHi]; intros j.
  - rewrite lev_0_l. lia.
  - induction j as [|j IHj].
    + rewrite lev_0_r. lia.
    + rewrite lev_S_S. specialize (IHi j).
      destruct (bool_decide (s1 !! i = s2 !! j)); unfold min3; lia.
Qed.

Lemma lev_sym (s1 s2 : jsstring) (i j : nat) :
  lev s1 s2 i j = lev s2 s1 j i.
Proof.
  revert j. induction i as [|i IHi]; intros j.
  - rewrite lev_0_l, lev_0_r. reflexivity.
  - induction j as [|j IHj].
    + rewrite lev_0_l, lev_0_r. reflexivity.
    + rewrite !lev_S_S, IHj, (IHi j), (IHi (S j)).
      rewrite (bool_decide_ext (s2 !! j = s1 !! i) (s1 !! i = s2 !! j))
        by (split; congruence).
      destruct (bool_decide (s1 !! i = s2 !! j)); [reflexivity|].
      unfold min3. lia.
Qed.

Lemma levenshteinDistance_le_max (s1 s2 : jsstring) :
  levenshteinDistance s1 s2 <= Nat.max (length s1) (length s2).
Proof. rewrite levenshteinDistance_lev. apply lev_le_max. Qed.

Lemma levenshteinDistance_sym (s1 s2 : jsstring) :
  levenshteinDistance s1 s2 = levenshteinDistance s2 s1.
Proof. rewrite !levenshteinDistance_lev. apply lev_sym. Qed.

(** ** The similarity score *)

Lemma Qnat_le (a b : nat) : a <= b -> (Qnat a <= Qnat b)%Q.
Proof. intros Hle. unfold Qnat. rewrite <- Zle_Qle. lia. Qed.

Lemma Qnat_pos (a : nat) : 0 < a -> (0 < Qnat a)%Q.
Proof. intros Hlt. unfold Qnat. change 0%Q with (inject_Z 0). rewrite <- Zlt_Qlt. lia. Qed.

Lemma Qnat_nonneg (a : nat) : (0 <= Qnat a)%Q.
Proof. unfold Qnat. change 0%Q with (inject_Z 0). rewrite <- Zle_Qle. lia. Qed.

(** A quotient of a smaller by a larger positive number lies in [0, 1]. *)
Lemma ratio_range (d l : nat) :
  d <= l -> 0 < l -> (0 <= Qnat d / Qnat l <= 1)%Q.
Proof.
  intros Hle Hpos. pose proof (Qnat_pos l Hpos) as Hl.
  split.
  - apply Qle_shift_div_l; [exact Hl|]. rewrite Qmult_0_l. apply Qnat_nonneg.
  - apply Qle_shift_div_r; [exact Hl|]. rewrite Qmult_1_l. apply Qnat_le, Hle.
Qed.

Section ScorerProperties.
Context `{Host}.

(** In the fuzzy branch the strings differ, so the longer one is not
    empty and the division is by a positive length. *)
Lemma maxLen_positive (s1 s2 : jsstring) :
  s1 <> s2 -> 0 < Nat.max (length s1) (length s2).
Proof.
  intros Hne. destruct s1, s2; simpl; try lia. congruence.
Qed.

Lemma calculateSimilarity_range (str1 str2 : jsstring) :
  (0 <= calculateSimilarity str1 str2 <= 1)%Q.
Proof.
  unfold calculateSimilarity.
  destruct (bool_decide_reflect (toLowerCase str1 = toLowerCase str2)) as [_|Hne].
  { split; discriminate. }
  destruct (_ || _); [split; discriminate|].
  destruct (_ || _); [split; discriminate|].
  pose proof (ratio_range _ _ (levenshteinDistance_le_max (toLowerCase str1) (toLowerCase str2))
                (maxLen_positive _ _ Hne)) as [H0 H1].
  split; lra.
Qed.

Lemma calculateSimilarity_sym (str1 str2 : jsstring) :
  calculateSimilarity str1 str2 = calculateSimilarity str2 str1.
Proof.
  unfold calculateSimilarity.
  rewrite (bool_decide_ext (toLowerCase str2 = toLowerCase str1)
             (toLowerCase str1 = toLowerCase str2)) by (split; congruence).
  rewrite (orb_comm (startsWith (toLowerCase str2) _)).
  rewrite (orb_comm (includes (toLowerCase str2) _)).
  rewrite (levenshteinDistance_sym (toLowerCase str2)).
  rewrite (Nat.max_comm (length (toLowerCase str2))).
  reflexivity.
Qed.

Lemma toLowerCase_of_Return (x : option jsstring) (e : exn) :
  toLowerCase_of x = Throw e -> x = None.
Proof. destruct x; [discriminate | reflexivity]. Qed.

(** C8. For a book whose request count is not negative the total score of
    [scoreBook] lies in [0, 1.1]: the edit distance never exceeds the
    longer length, each field similarity lies in [0, 1], the sum weighted
    by 0.7 and 0.3 lies in [0, 1], and the popularity boost
    [min(request_count / 100, 0.1)] lies in [0, 0.1]. The score exists
    unless a name of the book is [null]. *)
Theorem scoreBook_range (b : book) (query : jsstring) :
  (0 <= request_count b)%Z ->
  (forall s1 s2 : jsstring,
      levenshteinDistance s1 s2 <= Nat.max (length s1) (length s2)) /\
  (forall s1 s2 : jsstring, (0 <= calculateSimilarity s1 s2 <= 1)%Q) /\
  match scoreBook b query with
  | Return total =>
      exists bookNameScore authorNameScore : Q,
        let weighted := (bookNameScore * (7 # 10) + authorNameScore * (3 # 10))%Q in
        let boost := Qmin (inject_Z (request_count b) / 100) (1 # 10) in
        (0 <= bookNameScore <= 1)%Q /\ (0 <= authorNameScore <= 1)%Q /\
        (0 <= weighted <= 1)%Q /\ (0 <= boost <= 1 # 10)%Q /\
        total = (weighted + boost)%Q /\ (0 <= total <= 11 # 10)%Q
  | Throw _ => book_name b = None \/ author_name b = None
  end.
Proof.
  intros Hrc.
  split; [exact levenshteinDistance_le_max|].
  split; [exact calculateSimilarity_range|].
  unfold scoreBook.
  destruct (toLowerCase_of (book_name b)) as [name|e] eqn:En; simpl;
    [|left; eapply toLowerCase_of_Return; eauto].
  destruct (toLowerCase_of (author_name b)) as [author|e] eqn:Ea; simpl;
    [|right; eapply toLowerCase_of_Return; eauto].
  set (q := normalizePersianArabicChars (toLowerCase query)).
  pose proof (calculateSimilarity_range (normalizePersianArabicChars name) q) as Hn.
  pose proof (calculateSimilarity_range (normalizePersianArabicChars author) q) as Ha.
  exists (calculateSimilarity (normalizePersianArabicChars name) q),
         (calculateSimilarity (normalizePersianArabicChars author) q).
  cbv zeta.
  set (x := calculateSimilarity (normalizePersianArabicChars name) q) in *.
  set (y := calculateSimilarity (normalizePersianArabicChars author) q) in *.
  assert (Hb : (0 <= Qmin (inject_Z (request_count b) / 100) (1 # 10) <= 1 # 10)%Q).
  { split; [|apply Q.le_min_r].
    apply Q.min_glb; [|discriminate].
    apply Qle_shift_div_l; [reflexivity|]. rewrite Qmult_0_l.
    change 0%Q with (inject_Z 0). rewrite <- Zle_Qle. exact Hrc. }
  set (boost := Qmin (inject_Z (request_count b) / 100) (1 # 10)) in *.
  unfold config.search.weights.bookName, config.search.weights.authorName.
  repeat split; try reflexivity; lra.
Qed.

(** C10. The similarity is symmetric as a whole: the equality test, the
    two prefix tests, the two substring tests, the edit distance and the
    maximal length read the same with the arguments exchanged. *)
Theorem calculateSimilarity_symmetric (a b : jsstring) :
  calculateSimilarity a b = calculateSimilarity b a /\
  levenshteinDistance a b = levenshteinDistance b a.
Proof. split; [apply calculateSimilarity_sym | apply levenshteinDistance_sym]. Qed.

End ScorerProperties.

(** The bound holds on a concrete row. *)
Lemma scoreBook_range_witness :
  match @scoreBook asciiHost book2 (lit "logic") with
  | Return total => (0 <= total <= 11 # 10)%Q
  | Throw _ => False
  end.
Proof.
  pose proof (@scoreBook_range asciiHost book2 (lit "logic") ltac:(discriminate))
    as (_ & _ & Hs).
  destruct (@scoreBook asciiHost book2 (lit "logic")) as [total|e] eqn:E.
  - destruct Hs as (x & y & _ & _ & _ & _ & _ & Hr). exact Hr.
  - vm_compute in E. discriminate E.
Defined.


(** ** Sorting *)

Section SortProperties.
Context {A : Type} (cmp : A -> A -> Q) (dom : A -> Prop).

Let before (x y : A) : Prop := (cmp x y <= 0)%Q.

Hypothesis cmp_total :
  forall x y, dom x -> dom y -> ~ before x y -> before y x.
Hypothesis cmp_trans :
  forall x y z, dom x -> dom y -> dom z -> before x y -> before y z -> before x z.

Lemma sort_insert_perm (x : A) (l : list A) :
  Permutation (sort_insert cmp x l) (x :: l).
Proof.
  induction l as [|y l IH]; simpl; [reflexivity|].
  destruct (Qle_bool (cmp x y) 0); [reflexivity|].
  rewrite IH. apply perm_swap.
Qed.

Lemma sort_perm (l : list A) : Permutation (sort cmp l) l.
Proof.
  induction l as [|x l IH]; simpl; [reflexivity|].
  rewrite sort_insert_perm. apply perm_skip, IH.
Qed.

Lemma sort_insert_sorted (x : A) (l : list A) :
  dom x -> Forall dom l ->
  StronglySorted before l -> StronglySorted before (sort_insert cmp x l).
Proof.
  intros Hx Hl Hs. induction Hs as [|y l Hs IH Hy]; simpl.
  - repeat constructor.
  - apply Forall_cons in Hl as [Hdy Hdl].
    destruct (Qle_bool (cmp x y) 0) eqn:E.
    + apply Qle_bool_iff in E.
      constructor; [constructor; assumption|].
      constructor; [exact E|].
      rewrite Forall_forall in Hy, Hdl |- *. intros z Hz.
      apply (cmp_trans x y z); auto.
    + assert (Hyx : before y x).
      { apply cmp_total; auto. unfold before. rewrite <- Qle_bool_iff. congruence. }
      constructor; [apply IH, Hdl|].
      rewrite Forall_forall. intros z Hz.
      apply list_elem_of_In in Hz.
      apply (Permutation_in _ (sort_insert_perm x l)) in Hz.
      destruct Hz as [<-|Hz]; [exact Hyx|].
      rewrite Forall_forall in Hy. apply Hy. apply list_elem_of_In, Hz.
Qed.

Lemma sort_sorted (l : list A) :
  Forall dom l -> StronglySorted before (sort cmp l).
Proof.
  induction l as [|x l IH]; intros Hd; simpl; [constructor|].
  apply Forall_cons in Hd as [Hx Hl].
  apply sort_insert_sorted; auto.
  rewrite Forall_forall in Hl |- *. intros z Hz. apply Hl.
  apply list_elem_of_In. apply (Permutation_in _ (sort_perm l)).
  apply list_elem_of_In, Hz.
Qed.

End SortProperties.





(** ** The orchestrator *)

Section OrchestratorProperties.
Context `{Host} `{Database} {C : Type} `{NodeCache (list entry) C}.


Lemma scoreBook_total (b : book) (q : jsstring) :
  wellFormed b -> exists s, scoreBook b q = Return s.
Proof.
  unfold scoreBook. intros [[n ->] [a ->]]. simpl. eexists. reflexivity.
Qed.

Lemma scoreAll_Return (q : jsstring) (l : list book) (sb : list scoredBook) :
  scoreAll q l = Return sb ->
  List.map the_book sb = l /\
  Forall (fun s => scoreBook (the_book s) q = Return (score s)) sb.
Proof.
  unfold scoreAll. revert sb. induction l as [|b l IH]; intros sb; simpl.
  - intros [= <-]. split; constructor.
  - destruct (scoreBook b q) as [s|e] eqn:Es; simpl; [|discriminate].
    destruct (map_throwing _ l) as [sb'|e] eqn:El; simpl; [|discriminate].
    intros [= <-]. destruct (IH sb' eq_refl) as [Hm Hf].
    split; simpl; [congruence|]. constructor; assumption.
Qed.


(** The scoring pass stops at the first candidate whose scoring throws. *)
Lemma scoreAll_Throw (q : jsstring) (pre post : list book) (b : book) (e : exn) :
  Forall wellFormed pre ->
  scoreBook b q = Throw e ->
  scoreAll q (pre ++ b :: post) = Throw e.
Proof.
  unfold scoreAll.
  intros Hpre Hb. induction Hpre as [|b' pre Hb' Hpre IH]; simpl.
  - rewrite Hb. reflexivity.
  - destruct (scoreBook_total b' q Hb') as [s ->]. simpl.
    rewrite IH. reflexivity.
Qed.

(** What a search does once the cache has missed and the rows are there. *)
Lemma advancedSearch_on_miss (query : jsstring) (options : Options)
    (st : searchCache.state C) (allBooks : list book) :
  fst (searchCache.get (cacheKeyOf query options) st) = None ->
  fetchCandidates options = Return allBooks ->
  advancedSearch query options st =
  let st1 := snd (searchCache.get (cacheKeyOf query options) st) in
  if length allBooks =? 0 then (Return [], st1)
  else
    match exactMatch (normalize query) allBooks with
    | Some found =>
        (Return [bare found],
         snd (searchCache.set (cacheKeyOf query options) [bare found] None st1))
    | None =>
        match scoreAll (normalize query) allBooks with
        | Throw e => (Throw e, st1)
        | Return scoredBooks =>
            (Return (rank options scoredBooks),
             snd (searchCache.set (cacheKeyOf query options)
                    (rank options scoredBooks) None st1))
        end
    end.
Proof.
  intros Hmiss Hfetch. unfold advancedSearch, fetchCandidates in *.
  fold (normalize query). fold (cacheKeyOf query options).
  destruct (searchCache.get (cacheKeyOf query options) st) as [cached st1].
  simpl in Hmiss. subst cached. cbv zeta. simpl snd.
  destruct (buildQuery (get_category options) (get_author options)) as [sql params].
  rewrite Hfetch.
  destruct (length allBooks =? 0); [reflexivity|].
  destruct (exactMatch (normalize query) allBooks) as [found|].
  - destruct (searchCache.set _ _ _ _). reflexivity.
  - fold (scoreAll (normalize query) allBooks).
    destruct (scoreAll (normalize query) allBooks) as [sb|e]; [|reflexivity].
    fold (passing sb).
    match goal with
    | |- context [List.map scored ?x] =>
        replace (List.map scored x) with (rank options sb)
          by (unfold rank, comparatorOf; repeat case_bool_decide; reflexivity)
    end.
    destruct (searchCache.set _ _ _ _). reflexivity.
Qed.

(** *** The order of a ranking *)




Lemma length_eqb_0_false {A : Type} (l : list A) : l <> [] -> (length l =? 0) = false.
Proof. destruct l; [congruence | reflexivity]. Qed.

(** What a search returns once it reaches the scoring stage. *)
Lemma advancedSearch_ranked (query : jsstring) (options : Options)
    (st : searchCache.state C) (allBooks : list book) :
  fst (searchCache.get (cacheKeyOf query options) st) = None ->
  fetchCandidates options = Return allBooks ->
  exactMatch (normalize query) allBooks = None ->
  fst (advancedSearch query options st) =
  match scoreAll (normalize query) allBooks with
  | Throw e => Throw e
  | Return scoredBooks => Return (rank options scoredBooks)
  end.
Proof.
  intros Hmiss Hfetch Hex.
  rewrite (advancedSearch_on_miss _ _ _ _ Hmiss Hfetch). cbv zeta.
  destruct allBooks as [|b l].
  { simpl. unfold rank, passing, slice0. simpl.
    destruct (get_limit options <? 0)%Z; rewrite firstn_nil; reflexivity. }
  cbn [length Nat.eqb]. rewrite Hex.
  destruct (scoreAll (normalize query) (b :: l)); reflexivity.
Qed.





(** C6, as the code has it. When scoring a candidate throws, the search
    does not return: the exception of the first such candidate reaches the
    caller, and the cache is left as the missed lookup left it. *)
Theorem advancedSearch_scoring_throws (query : jsstring) (options : Options)
    (st : searchCache.state C) (pre post : list book) (b : book) (e : exn) :
  fst (searchCache.get (cacheKeyOf query options) st) = None ->
  fetchCandidates options = Return (pre ++ b :: post) ->
  exactMatch (normalize query) (pre ++ b :: post) = None ->
  Forall wellFormed pre ->
  scoreBook b (normalize query) = Throw e ->
  advancedSearch query options st =
    (Throw e, snd (searchCache.get (cacheKeyOf query options) st)).
Proof.
  intros Hmiss Hfetch Hex Hpre Hb.
  rewrite (advancedSearch_on_miss _ _ _ _ Hmiss Hfetch). cbv zeta.
  rewrite length_eqb_0_false by (destruct pre; discriminate).
  rewrite Hex, (scoreAll_Throw _ _ _ _ _ Hpre Hb). reflexivity.
Qed.

(** A search whose fetch finds no row returns the empty result and leaves
    the cache as the missed lookup left it. *)
Lemma advancedSearch_no_rows (query : jsstring) (options : Options)
    (st : searchCache.state C) :
  fst (searchCache.get (cacheKeyOf query options) st) = None ->
  fetchCandidates options = Return [] ->
  advancedSearch query options st =
    (Return [], snd (searchCache.get (cacheKeyOf query options) st)).
Proof.
  intros Hmiss Hfetch.
  rewrite (advancedSearch_on_miss _ _ _ _ Hmiss Hfetch). reflexivity.
Qed.

End OrchestratorProperties.

(** ** The engine on the small setting *)






Example exact_id_bypasses_threshold :
  exists s, @scoreBook asciiHost book42 (lit "42") = Return s /\
            (s < config.search.fuzzyThreshold)%Q.
Proof. eexists. split; [vm_compute; reflexivity | reflexivity]. Qed.

(** A row without a name in second place stops the search. *)
Lemma advancedSearch_scoring_throws_witness :
  run [book1; malformed; book2] (lit "logic") [] =
    (Throw TypeError,
     snd (@searchCache.get _ _ (mapStore (list entry)) (cacheKeyOf (lit "logic") []) emptyCache)).
Proof.
  apply (@advancedSearch_scoring_throws asciiHost (tableOf [book1; malformed; book2]) _
           (mapStore (list entry)) (lit "logic") [] emptyCache [book1] [book2] malformed
           TypeError).
  - vm_compute. reflexivity.
  - reflexivity.
  - vm_compute. reflexivity.
  - repeat constructor; eexists; reflexivity.
  - reflexivity.
Defined.

(** C6, as stated, fails: with one row lacking its name the search returns
    no result at all. *)
Lemma scoring_exception_aborts_search :
  ~ exists results, fst (run [book1; malformed; book2] (lit "logic") []) = Return results.
Proof. intros [results Hr]. vm_compute in Hr. discriminate Hr. Qed.

(** C4. With no row fetched the search returns the empty result and the
    cache holds nothing under its key, whereas the sibling exit, for rows
    that all score below the threshold, does store the empty result. *)
Theorem advancedSearch_empty_not_cached :
  fst (run [] (lit "logic") []) = Return [] /\
  searchCache.store (snd (run [] (lit "logic") [])) !! cacheKeyOf (lit "logic") [] = None /\
  fst (run [book42] (lit "logic") []) = Return [] /\
  searchCache.store (snd (run [book42] (lit "logic") [])) !! cacheKeyOf (lit "logic") []
    = Some [].
Proof. vm_compute. repeat split; reflexivity. Qed.

(** ** The cache key *)

(** C5, as stated, fails: two option objects with the same two fields,
    written in different orders, get different keys. *)
Lemma generateSearchKey_depends_on_order :
  ~ (forall (q : jsstring) (o1 o2 : Options),
        sameFields o1 o2 ->
        searchCache.generateSearchKey q o1 = searchCache.generateSearchKey q o2).
Proof.
  intros Hclaim.
  specialize (Hclaim (lit "42")
                [p_sortBy (lit "relevance"); p_limit 10]
                [p_limit 10; p_sortBy (lit "relevance")]
                (perm_swap _ _ _)).
  vm_compute in Hclaim. discriminate Hclaim.
Qed.

Lemma JSON_stringify_two (p1 p2 : property) :
  JSON_stringify [p1; p2] =
  lit "{" ++ property_json p1 ++ lit "," ++ property_json p2 ++ lit "}".
Proof.
  unfold JSON_stringify. cbn [List.map join].
  rewrite <- !app_assoc. reflexivity.
Qed.

(** C5, as the code has it. The key is ["search:" + q + ":" +
    JSON.stringify(options)], and the serialization lists the properties
    in the order they were written: option objects with the same
    properties in the same order share their key, and two different
    fields written in the two possible orders never do. *)
Theorem generateSearchKey_form (q : jsstring) (options : Options) :
  searchCache.generateSearchKey q options =
    lit "search:" ++ q ++ lit ":" ++
    (lit "{" ++ join (lit ",") (List.map property_json options) ++ lit "}") /\
  (forall options', options' = options ->
     searchCache.generateSearchKey q options' = searchCache.generateSearchKey q options) /\
  (forall p1 p2,
     propertyName p1 <> propertyName p2 ->
     searchCache.generateSearchKey q [p1; p2] <> searchCache.generateSearchKey q [p2; p1]).
Proof.
  split; [reflexivity|]. split; [intros ? ->; reflexivity|].
  intros p1 p2 Hne E. unfold searchCache.generateSearchKey in E.
  apply app_inv_head, app_inv_head, app_inv_head in E.
  rewrite !JSON_stringify_two in E. unfold property_json in E.
  destruct p1, p2; try (apply Hne; reflexivity);
    cbn [propertyName] in E; vm_compute in E; discriminate E.
Qed.

Lemma generateSearchKey_form_witness :
  searchCache.generateSearchKey (lit "42") [p_sortBy (lit "name"); p_limit 5] <>
  searchCache.generateSearchKey (lit "42") [p_limit 5; p_sortBy (lit "name")].
Proof.
  destruct (generateSearchKey_form (lit "42") []) as (_ & _ & Horder).
  apply Horder. vm_compute. discriminate.
Defined.

(** ** Cache statistics *)




Section CacheStatistics.
Context {V C : Type} `{NodeCache V C}.


End CacheStatistics.



(** ** The edit distance is the least number of edits *)

(** Neighbouring cells of the table differ by at most one. *)
Lemma lev_neighbours (s1 s2 : jsstring) (k i j : nat) :
  i + j <= k ->
  lev s1 s2 (S i) j <= lev s1 s2 i j + 1 /\
  lev s1 s2 i (S j) <= lev s1 s2 i j + 1 /\
  lev s1 s2 i j <= lev s1 s2 (S i) j + 1 /\
  lev s1 s2 i j <= lev s1 s2 i (S j) + 1.
Proof.
  revert i j. induction k as [|k IH]; intros i j Hk.
  { assert (i = 0) as -> by lia. assert (j = 0) as -> by lia.
    repeat split; reflexivity || (simpl; lia). }
  repeat split.
  - destruct j as [|j]; [rewrite !lev_0_r; lia|].
    pose proof (IH i j ltac:(lia)) as (_ & _ & _ & D).
    rewrite lev_S_S. destruct (bool_decide _); unfold min3; lia.
  - destruct i as [|i]; [rewrite !lev_0_l; lia|].
    pose proof (IH i j ltac:(lia)) as (_ & _ & C & _).
    rewrite lev_S_S. destruct (bool_decide _); unfold min3; lia.
  - destruct j as [|j]; [rewrite !lev_0_r; lia|].
    pose proof (IH i j ltac:(lia)) as (_ & B & C & _).
    rewrite lev_S_S. destruct (bool_decide _); unfold min3; lia.
  - destruct i as [|i]; [rewrite !lev_0_l; lia|].
    pose proof (IH i j ltac:(lia)) as (A & _ & _ & D).
    rewrite lev_S_S. destruct (bool_decide _); unfold min3; lia.
Qed.

Lemma prefix_snoc_inv (a s : jsstring) (x : N) :
  (a ++ [x]) `prefix_of` s -> a `prefix_of` s /\ s !! length a = Some x.
Proof.
  intros [k ->]. split.
  - exists ([x] ++ k). rewrite <- app_assoc. reflexivity.
  - rewrite <- app_assoc. rewrite lookup_app_r by lia.
    rewrite Nat.sub_diag. reflexivity.
Qed.

(** No alignment is cheaper than the cell of the table. *)
Lemma lev_le_alignment (a b : jsstring) (n : nat) :
  alignment a b n ->
  forall s1 s2, a `prefix_of` s1 -> b `prefix_of` s2 ->
  lev s1 s2 (length a) (length b) <= n.
Proof.
  induction 1 as [|a b n x Hal IH|a b n y Hal IH|a b n x y Hal IH|a b n x Hal IH];
    intros s1 s2 Ha Hb.
  - reflexivity.
  - apply prefix_snoc_inv in Ha as [Ha _].
    rewrite length_app, Nat.add_1_r.
    pose proof (lev_neighbours s1 s2 _ (length a) (length b) (le_n _)) as (A & _).
    specialize (IH s1 s2 Ha Hb). lia.
  - apply prefix_snoc_inv in Hb as [Hb _].
    rewrite length_app, Nat.add_1_r.
    pose proof (lev_neighbours s1 s2 _ (length a) (length b) (le_n _)) as (_ & B & _).
    specialize (IH s1 s2 Ha Hb). lia.
  - apply prefix_snoc_inv in Ha as [Ha _]. apply prefix_snoc_inv in Hb as [Hb _].
    rewrite !length_app, !Nat.add_1_r, lev_S_S.
    specialize (IH s1 s2 Ha Hb).
    destruct (bool_decide _); unfold min3; lia.
  - apply prefix_snoc_inv in Ha as [Ha Hx]. apply prefix_snoc_inv in Hb as [Hb Hy].
    rewrite !length_app, !Nat.add_1_r, lev_S_S.
    rewrite bool_decide_eq_true_2 by congruence.
    apply IH; assumption.
Qed.

(** Every cell of the table is the cost of an alignment of the two
    prefixes. *)
Lemma lev_alignment (a b : jsstring) (i j : nat) :
  i <= length a -> j <= length b ->
  alignment (take i a) (take j b) (lev a b i j).
Proof.
  revert j. induction i as [|i IHi]; intros j Hi Hj.
  - rewrite lev_0_l, take_0. clear Hi.
    induction j as [|j IHj]; [rewrite take_0; constructor|].
    destruct (lookup_lt_is_Some_2 b j ltac:(lia)) as [y Hy].
    rewrite (take_S_r _ _ _ Hy). constructor. apply IHj. lia.
  - destruct (lookup_lt_is_Some_2 a i ltac:(lia)) as [x Hx].
    induction j as [|j IHj].
    + rewrite lev_0_r, (take_S_r _ _ _ Hx), take_0.
      constructor. pose proof (IHi 0 ltac:(lia) ltac:(lia)) as H0.
      rewrite lev_0_r, take_0 in H0. exact H0.
    + destruct (lookup_lt_is_Some_2 b j ltac:(lia)) as [y Hy].
      rewrite lev_S_S.
      case_bool_decide as E.
      * rewrite (take_S_r _ _ _ Hx), (take_S_r _ _ _ Hy).
        assert (x = y) as -> by congruence.
        apply align_keep. apply IHi; lia.
      * unfold min3. rewrite Nat.add_1_r.
        destruct (Nat.min_spec (lev a b i (S j)) (lev a b (S i) j)) as [[_ ->]|[_ ->]];
        match goal with
        | |- context [Nat.min ?u ?v] =>
            destruct (Nat.min_spec u v) as [[_ ->]|[_ ->]]
        end.
        -- rewrite (take_S_r _ _ _ Hx). apply align_delete. apply IHi; lia.
        -- rewrite (take_S_r _ _ _ Hx), (take_S_r _ _ _ Hy).
           apply align_substitute. apply IHi; lia.
        -- rewrite (take_S_r b j y Hy). apply align_insert. apply IHj. lia.
        -- rewrite (take_S_r _ _ _ Hx), (take_S_r _ _ _ Hy).
           apply align_substitute. apply IHi; lia.
Qed.

Lemma levenshteinDistance_alignment (a b : jsstring) :
  alignment a b (levenshteinDistance a b).
Proof.
  rewrite levenshteinDistance_lev.
  pose proof (lev_alignment a b (length a) (length b) (le_n _) (le_n _)) as Hal.
  rewrite !firstn_all in Hal. exact Hal.
Qed.

Lemma levenshteinDistance_le_alignment (a b : jsstring) (n : nat) :
  alignment a b n -> levenshteinDistance a b <= n.
Proof.
  intros Hal. rewrite levenshteinDistance_lev.
  apply (lev_le_alignment a b n Hal); reflexivity.
Qed.

(** *** Alignments compose *)

Lemma alignment_refl (s : jsstring) : alignment s s 0.
Proof. induction s as [|x s IH] using rev_ind; constructor; assumption. Qed.

Lemma alignment_app_r (a b v : jsstring) (n : nat) :
  alignment a b n -> alignment (a ++ v) (b ++ v) n.
Proof.
  intros Hal. induction v as [|z v IH] using rev_ind.
  - rewrite !app_nil_r. exact Hal.
  - rewrite !app_assoc. apply align_keep, IH.
Qed.

Section Compose.
Variables (b' c' : jsstring) (m' : nat).
Hypothesis through :
  forall a n, alignment a b' n -> exists k, k <= n + m' /\ alignment a c' k.

Lemma compose_keep (x : N) (a t : jsstring) (n : nat) :
  alignment a t n -> t = b' ++ [x] ->
  exists k, k <= n + m' /\ alignment a (c' ++ [x]) k.
Proof.
  induction 1 as [|a b n z Hal IH|a b n y Hal IH|a b n z y Hal IH|a b n z Hal IH];
    intros E.
  - destruct b'; discriminate E.
  - destruct (IH E) as (k & Hk & Hc). exists (S k). split; [lia|].
    apply align_delete, Hc.
  - apply app_inj_tail in E as [-> ->].
    destruct (through a n Hal) as (k & Hk & Hc). exists (S k). split; [lia|].
    apply align_insert, Hc.
  - apply app_inj_tail in E as [-> ->].
    destruct (through a n Hal) as (k & Hk & Hc). exists (S k). split; [lia|].
    apply align_substitute, Hc.
  - apply app_inj_tail in E as [-> ->].
    destruct (through a n Hal) as (k & Hk & Hc). exists k. split; [lia|].
    apply align_keep, Hc.
Qed.

Lemma compose_substitute (x y : N) (a t : jsstring) (n : nat) :
  alignment a t n -> t = b' ++ [x] ->
  exists k, k <= n + S m' /\ alignment a (c' ++ [y]) k.
Proof.
  induction 1 as [|a b n z Hal IH|a b n w Hal IH|a b n z w Hal IH|a b n z Hal IH];
    intros E.
  - destruct b'; discriminate E.
  - destruct (IH E) as (k & Hk & Hc). exists (S k). split; [lia|].
    apply align_delete, Hc.
  - apply app_inj_tail in E as [-> ->].
    destruct (through a n Hal) as (k & Hk & Hc). exists (S k). split; [lia|].
    apply align_insert, Hc.
  - apply app_inj_tail in E as [-> ->].
    destruct (through a n Hal) as (k & Hk & Hc). exists (S k). split; [lia|].
    apply align_substitute, Hc.
  - apply app_inj_tail in E as [-> ->].
    destruct (through a n Hal) as (k & Hk & Hc). exists (S k). split; [lia|].
    apply align_substitute, Hc.
Qed.

End Compose.

(** Dropping the last character of the target costs at most one more. *)
Lemma alignment_drop_last (a t b' : jsstring) (x : N) (n : nat) :
  alignment a t n -> t = b' ++ [x] ->
  exists k, k <= S n /\ alignment a b' k.
Proof.
  induction 1 as [|a b n z Hal IH|a b n y Hal IH|a b n z y Hal IH|a b n z Hal IH];
    intros E.
  - destruct b'; discriminate E.
  - destruct (IH E) as (k & Hk & Hc). exists (S k). split; [lia|].
    apply align_delete, Hc.
  - apply app_inj_tail in E as [-> ->]. exists n. split; [lia | exact Hal].
  - apply app_inj_tail in E as [-> ->]. exists (S n). split; [lia|].
    apply align_delete, Hal.
  - apply app_inj_tail in E as [-> ->]. exists (S n). split; [lia|].
    apply align_delete, Hal.
Qed.

Lemma alignment_compose (b c : jsstring) (m : nat) :
  alignment b c m ->
  forall a n, alignment a b n -> exists k, k <= n + m /\ alignment a c k.
Proof.
  induction 1 as [|b c m x Hal IH|b c m y Hal IH|b c m x y Hal IH|b c m x Hal IH];
    intros a n Ha.
  - exists n. split; [lia | exact Ha].
  - destruct (alignment_drop_last _ _ b x _ Ha eq_refl) as (k & Hk & Hb).
    destruct (IH a k Hb) as (k' & Hk' & Hc). exists k'. split; [lia | exact Hc].
  - destruct (IH a n Ha) as (k & Hk & Hc). exists (S k). split; [lia|].
    apply align_insert, Hc.
  - apply (compose_substitute b c m IH x y a _ n Ha eq_refl).
  - apply (compose_keep b c m IH x a _ n Ha eq_refl).
Qed.

(** *** Alignments and sequences of edits *)

Lemma one_edit_app_r (s t v : jsstring) : one_edit s t -> one_edit (s ++ v) (t ++ v).
Proof.
  intros [u w x|u w x|u w x y]; rewrite <- !app_assoc, <- ?app_comm_cons; constructor.
Qed.

Lemma edits_app_r (s t v : jsstring) (n : nat) :
  edits s t n -> edits (s ++ v) (t ++ v) n.
Proof.
  induction 1 as [|s t u n Hone Hrest IH]; [constructor|].
  eapply edits_step; [apply one_edit_app_r, Hone | exact IH].
Qed.

Lemma edits_trans (s t u : jsstring) (n m : nat) :
  edits s t n -> edits t u m -> edits s u (n + m).
Proof.
  induction 1 as [|s t w n Hone Hrest IH]; intros Hu; [exact Hu|].
  simpl. eapply edits_step; [exact Hone | apply IH, Hu].
Qed.

Lemma edits_one (s t : jsstring) : one_edit s t -> edits s t 1.
Proof. intros Hone. eapply edits_step; [exact Hone | constructor]. Qed.

Lemma alignment_edits (a b : jsstring) (n : nat) : alignment a b n -> edits a b n.
Proof.
  induction 1 as [|a b n x Hal IH|a b n y Hal IH|a b n x y Hal IH|a b n x Hal IH].
  - constructor.
  - eapply edits_step; [|exact IH].
    rewrite <- (app_nil_r a) at 2. apply edit_delete.
  - rewrite <- Nat.add_1_r. eapply edits_trans; [exact IH|].
    apply edits_one. rewrite <- (app_nil_r b) at 1. apply edit_insert.
  - eapply edits_step; [apply (edit_substitute a [] x y)|].
    apply edits_app_r, IH.
  - apply edits_app_r, IH.
Qed.

Lemma one_edit_alignment (s t : jsstring) : one_edit s t -> alignment s t 1.
Proof.
  intros [u v x|u v x|u v x y].
  - change (u ++ x :: v) with (u ++ [x] ++ v). rewrite app_assoc.
    apply alignment_app_r, align_insert, alignment_refl.
  - change (u ++ x :: v) with (u ++ [x] ++ v). rewrite app_assoc.
    apply alignment_app_r, align_delete, alignment_refl.
  - change (u ++ x :: v) with (u ++ [x] ++ v).
    change (u ++ y :: v) with (u ++ [y] ++ v). rewrite !app_assoc.
    apply alignment_app_r, align_substitute, alignment_refl.
Qed.

Lemma edits_alignment (s t : jsstring) (n : nat) :
  edits s t n -> exists k, k <= n /\ alignment s t k.
Proof.
  induction 1 as [s|s t u n Hone Hrest (k & Hk & Hal)].
  - exists 0. split; [lia | apply alignment_refl].
  - destruct (alignment_compose _ _ _ Hal s 1 (one_edit_alignment _ _ Hone))
      as (k' & Hk' & Hc).
    exists k'. split; [lia | exact Hc].
Qed.

Lemma alignment_zero (a b : jsstring) (n : nat) :
  alignment a b n -> n = 0 -> a = b.
Proof.
  induction 1; intros E; try discriminate E; [reflexivity|].
  f_equal. auto.
Qed.

Lemma alignment_lengths (a b : jsstring) (n : nat) :
  alignment a b n -> length a <= length b + n /\ length b <= length a + n.
Proof. induction 1; rewrite ?length_app; simpl; lia. Qed.

(** X1. [levenshteinDistance a b] is the least number of single-character
    insertions, deletions and substitutions that turn [a] into [b]: that
    many suffice, and no sequence of edits from [a] to [b] is shorter. *)
Theorem levenshteinDistance_least_edits (a b : jsstring) :
  edits a b (levenshteinDistance a b) /\
  (forall n, edits a b n -> levenshteinDistance a b <= n).
Proof.
  split.
  - apply alignment_edits, levenshteinDistance_alignment.
  - intros n He. destruct (edits_alignment _ _ _ He) as (k & Hk & Hal).
    pose proof (levenshteinDistance_le_alignment _ _ _ Hal). lia.
Qed.

Lemma levenshteinDistance_least_edits_witness :
  levenshteinDistance (lit "kitten") (lit "sitting") <= 3.
Proof.
  apply (levenshteinDistance_least_edits (lit "kitten") (lit "sitting")).
  eapply edits_step; [apply (edit_substitute [] (lit "itten") 107 115)%N|].
  eapply edits_step; [apply (edit_substitute (lit "sitt") (lit "n") 101 105)%N|].
  eapply edits_step; [apply (edit_insert (lit "sittin") [] 103%N)|].
  apply edits_done.
Defined.

(** X2. The distance obeys the triangle inequality: going through a third
    string is never shorter. *)
Theorem levenshteinDistance_triangle (a b c : jsstring) :
  levenshteinDistance a c <= levenshteinDistance a b + levenshteinDistance b c.
Proof.
  destruct (alignment_compose _ _ _ (levenshteinDistance_alignment b c)
              a _ (levenshteinDistance_alignment a b)) as (k & Hk & Hal).
  pose proof (levenshteinDistance_le_alignment _ _ _ Hal). lia.
Qed.

(** X3. The distance is zero exactly for equal strings, it is the length of
    the other string when one is empty, and it is never less than the
    difference of the two lengths. *)
Theorem levenshteinDistance_identity (a b : jsstring) :
  (levenshteinDistance a b = 0 <-> a = b) /\
  levenshteinDistance a [] = length a /\
  levenshteinDistance [] b = length b /\
  length a - length b <= levenshteinDistance a b /\
  length b - length a <= levenshteinDistance a b.
Proof.
  pose proof (alignment_lengths _ _ _ (levenshteinDistance_alignment a b)) as [H1 H2].
  repeat split; try lia.
  - intros E. apply (alignment_zero a b _ (levenshteinDistance_alignment a b) E).
  - intros ->. pose proof (levenshteinDistance_le_alignment _ _ _ (alignment_refl b)). lia.
  - rewrite levenshteinDistance_lev. apply lev_0_r.
  - rewrite levenshteinDistance_lev. apply lev_0_l.
Qed.

(** ** More about the scorer *)

Section ScorerExtras.
Context `{Host}.

Lemma Qnat_zero (d : nat) : (Qnat d == 0)%Q -> d = 0.
Proof.
  unfold Qnat, Qeq. simpl. intros E. lia.
Qed.

(** X4. The similarity is 1 exactly when the two strings are equal once
    lower-cased; every other pair scores strictly less. *)
Theorem calculateSimilarity_one (a b : jsstring) :
  ((calculateSimilarity a b == 1)%Q <-> toLowerCase a = toLowerCase b) /\
  (toLowerCase a <> toLowerCase b -> (calculateSimilarity a b < 1)%Q).
Proof.
  assert (Hlt : toLowerCase a <> toLowerCase b -> (calculateSimilarity a b < 1)%Q).
  { intros Hne. unfold calculateSimilarity.
    rewrite bool_decide_eq_false_2 by assumption.
    destruct (_ || _); [reflexivity|].
    destruct (_ || _); [reflexivity|].
    set (d := levenshteinDistance (toLowerCase a) (toLowerCase b)).
    set (l := Nat.max (length (toLowerCase a)) (length (toLowerCase b))).
    assert (Hd : 0 < d).
    { destruct d eqn:Ed; [|lia]. exfalso. apply Hne.
      apply (alignment_zero _ _ _ (levenshteinDistance_alignment _ _)). exact Ed. }
    pose proof (maxLen_positive _ _ Hne) as Hl. fold l in Hl.
    apply Qnat_pos in Hd, Hl.
    assert (0 < Qnat d / Qnat l)%Q by (apply Qlt_shift_div_l; [assumption | lra]).
    lra. }
  split; [|exact Hlt]. split.
  - intros E. destruct (decide (toLowerCase a = toLowerCase b)) as [?|Hne]; [assumption|].
    specialize (Hlt Hne). lra.
  - intros E. unfold calculateSimilarity. rewrite bool_decide_eq_true_2 by assumption.
    reflexivity.
Qed.

Lemma startsWith_nil (s : jsstring) : startsWith s [] = true.
Proof. destruct s; reflexivity. Qed.

Lemma calculateSimilarity_nil_r (s : jsstring) :
  toLowerCase [] = [] -> (9 # 10 <= calculateSimilarity s [])%Q.
Proof.
  intros Hnil. unfold calculateSimilarity. rewrite Hnil.
  destruct (bool_decide _); [discriminate|].
  rewrite startsWith_nil. simpl. discriminate.
Qed.

(** X5. Against the empty string every string scores at least 0.9, and
    exactly 0.9 unless it is empty itself when lower-cased: the empty
    string is a prefix of everything. *)
Theorem calculateSimilarity_empty (s : jsstring) :
  toLowerCase [] = [] ->
  (9 # 10 <= calculateSimilarity s [])%Q /\
  (9 # 10 <= calculateSimilarity [] s)%Q /\
  (toLowerCase s <> [] -> calculateSimilarity s [] = 9 # 10).
Proof.
  intros Hnil. split; [apply calculateSimilarity_nil_r, Hnil|]. split.
  - rewrite calculateSimilarity_sym. apply calculateSimilarity_nil_r, Hnil.
  - intros Hne. unfold calculateSimilarity. rewrite Hnil.
    rewrite bool_decide_eq_false_2 by assumption.
    rewrite startsWith_nil. reflexivity.
Qed.



End ScorerExtras.

Lemma calculateSimilarity_one_witness :
  (@calculateSimilarity asciiHost (lit "Logic") (lit "rhetoric") < 1)%Q.
Proof.
  apply (proj2 (@calculateSimilarity_one asciiHost (lit "Logic") (lit "rhetoric"))).
  vm_compute. discriminate.
Defined.

Lemma calculateSimilarity_empty_witness :
  (9 # 10 <= @calculateSimilarity asciiHost (lit "logic") [])%Q.
Proof. apply (proj1 (@calculateSimilarity_empty asciiHost (lit "logic") eq_refl)). Defined.



(** ** More about the cache module *)

Section CacheExtras.
Context {V C : Type} `{NodeCache V C}.

Lemma get_counts_one (key : jsstring) (st : searchCache.state C) :
  searchCache.hits (snd (searchCache.get key st)) +
  searchCache.misses (snd (searchCache.get key st))
  = searchCache.hits st + searchCache.misses st + 1.
Proof.
  unfold searchCache.get. simpl.
  destruct (nc_get key (searchCache.store st)) as [[v|] s]; simpl; lia.
Qed.

(** X7. Whatever calls are made, [hits + misses] is the number of lookups
    since the last [flush] (or since the start, on top of what was counted
    then): every [get] counts exactly once, as a hit or as a miss, and
    [set] and [del] count nothing. *)
Theorem counters_count_lookups (calls : list (call V)) (st : searchCache.state C) :
  searchCache.hits (performAll calls st) + searchCache.misses (performAll calls st)
  = lookupsCounted calls (searchCache.hits st + searchCache.misses st).
Proof.
  unfold performAll, lookupsCounted. revert st.
  induction calls as [|c calls IH]; intros st; simpl; [reflexivity|].
  rewrite IH. f_equal. destruct c as [key|key value ttl|key|]; simpl.
  - apply get_counts_one.
  - unfold searchCache.set. simpl.
    destruct ttl as [[|t]|]; destruct (nc_set _ _ _ _); reflexivity.
  - unfold searchCache.del. destruct (nc_del _ _). reflexivity.
  - reflexivity.
Qed.

(** X8. The rate at the two ends: with hits only it reads "100.00%", with
    misses only "0.00%", which differs from the "0%" of a cache never
    looked up. *)
Theorem getStats_hitRate_extremes (st : searchCache.state C) :
  (0 < searchCache.hits st -> searchCache.misses st = 0 ->
   searchCache.stat_hitRate (searchCache.getStats st) = lit "100.00%") /\
  (searchCache.hits st = 0 -> 0 < searchCache.misses st ->
   searchCache.stat_hitRate (searchCache.getStats st) = lit "0.00%").
Proof.
  unfold searchCache.getStats. simpl. split.
  - intros Hh Hm. rewrite Hm, Nat.add_0_r.
    rewrite (proj2 (Nat.ltb_lt _ _) Hh).
    set (h := searchCache.hits st) in *.
    assert (E : (Qnat h / Qnat h * 100 == 100)%Q).
    { pose proof (Qnat_pos h Hh). field. lra. }
    unfold toFixed.
    destruct (Qlt_le_dec (Qnat h / Qnat h * 100) 0) as [Hneg|_]; [rewrite E in Hneg; lra|].
    rewrite E. reflexivity.
  - intros Hh Hm. rewrite Hh. simpl.
    rewrite (proj2 (Nat.ltb_lt _ _) Hm).
    set (m := searchCache.misses st) in *.
    assert (E : (Qnat 0 / Qnat m * 100 == 0)%Q).
    { pose proof (Qnat_pos m Hm). unfold Qnat at 1. simpl. field. lra. }
    unfold toFixed.
    destruct (Qlt_le_dec (Qnat 0 / Qnat m * 100) 0) as [Hneg|_]; [rewrite E in Hneg; lra|].
    rewrite E. reflexivity.
Qed.

End CacheExtras.

Lemma getStats_hitRate_extremes_witness :
  searchCache.stat_hitRate
    (@searchCache.getStats _ _ (mapStore (list entry))
       (snd (@searchCache.get _ _ (mapStore (list entry)) (lit "k") emptyCache)))
  = lit "0.00%".
Proof.
  apply (@getStats_hitRate_extremes _ _ (mapStore (list entry))); [reflexivity|].
  vm_compute. lia.
Defined.

(** ** More about the orchestrator *)

Section HitProperties.
Context `{Host} {C : Type} `{NodeCache (list entry) C}.

Lemma advancedSearch_on_hit (db : Database) (query : jsstring) (options : Options)
    (st : searchCache.state C) (cached : list entry) :
  fst (searchCache.get (cacheKeyOf query options) st) = Some cached ->
  @advancedSearch _ db _ _ query options st =
    (Return cached, snd (searchCache.get (cacheKeyOf query options) st)).
Proof.
  intros Hhit. unfold advancedSearch.
  fold (normalize query). fold (cacheKeyOf query options).
  destruct (searchCache.get (cacheKeyOf query options) st) as [v s].
  simpl in Hhit. subst v. reflexivity.
Qed.

(** X9. A search whose key is in the cache returns the cached list as it
    is, counts one hit and does not consult the database: the outcome is
    the same whatever the database holds or answers. *)
Theorem advancedSearch_hit (db : Database) (query : jsstring) (options : Options)
    (st : searchCache.state C) (cached : list entry) :
  fst (nc_get (cacheKeyOf query options) (searchCache.store st)) = Some cached ->
  @advancedSearch _ db _ _ query options st =
    (Return cached,
     {| searchCache.store := snd (nc_get (cacheKeyOf query options) (searchCache.store st));
        searchCache.hits := searchCache.hits st + 1;
        searchCache.misses := searchCache.misses st |}).
Proof.
  intros Hhit.
  assert (Hget : searchCache.get (cacheKeyOf query options) st =
     (Some cached,
      {| searchCache.store := snd (nc_get (cacheKeyOf query options) (searchCache.store st));
         searchCache.hits := searchCache.hits st + 1;
         searchCache.misses := searchCache.misses st |})).
  { unfold searchCache.get. simpl.
    destruct (nc_get (cacheKeyOf query options) (searchCache.store st)) as [v s].
    simpl in Hhit. subst v. reflexivity. }
  rewrite (advancedSearch_on_hit db query options st cached) by (rewrite Hget; reflexivity).
  rewrite Hget. reflexivity.
Qed.

End HitProperties.

Lemma filter_sublist {A : Type} (f : A -> bool) (l : list A) :
  List.filter f l `sublist_of` l.
Proof.
  induction l as [|x l IH]; simpl; [constructor|].
  destruct (f x); constructor; assumption.
Qed.

Lemma slice0_sublist {A : Type} (l : list A) (e : Z) : slice0 l e `sublist_of` l.
Proof. unfold slice0. destruct (e <? 0)%Z; apply sublist_take. Qed.

Lemma slice0_length {A : Type} (l : list A) (e : Z) :
  (0 <= e)%Z -> length (slice0 l e) = Nat.min (Z.to_nat e) (length l).
Proof.
  intros He. unfold slice0. rewrite (proj2 (Z.ltb_ge _ _) He). apply length_firstn.
Qed.

Lemma slice0_all {A : Type} (l : list A) (e : Z) :
  (Z.of_nat (length l) <= e)%Z -> slice0 l e = l.
Proof.
  intros He. unfold slice0. rewrite (proj2 (Z.ltb_ge _ _)) by lia.
  apply firstn_all2. lia.
Qed.

Section RankProperties.
Context `{Host} `{Database} {C : Type} `{NodeCache (list entry) C}.

Lemma rank_books (options : Options) (sb : list scoredBook) :
  List.map entry_book (rank options sb) ⊆+ List.map the_book sb.
Proof.
  unfold rank. rewrite List.map_map. simpl.
  change (List.map (fun x => the_book x)) with (fmap (M := list) the_book).
  apply fmap_submseteq.
  etransitivity; [apply sublist_submseteq, slice0_sublist|].
  etransitivity; [apply Permutation_submseteq, sort_perm|].
  apply sublist_submseteq, filter_sublist.
Qed.

Lemma rank_length (options : Options) (sb : list scoredBook) :
  (0 <= get_limit options)%Z ->
  length (rank options sb) <= Z.to_nat (get_limit options).
Proof.
  intros Hl. unfold rank. rewrite length_map, slice0_length by assumption. lia.
Qed.

(** X10. A search that reaches the scoring stage returns at most
    [options.limit] entries (ten when no limit is given) when the limit is
    not negative, and every returned entry is one of the fetched rows, no
    row being returned more often than it was fetched. *)
Theorem advancedSearch_limit (query : jsstring) (options : Options)
    (st : searchCache.state C) (allBooks : list book) (results : list entry) :
  fst (searchCache.get (cacheKeyOf query options) st) = None ->
  fetchCandidates options = Return allBooks ->
  exactMatch (normalize query) allBooks = None ->
  fst (advancedSearch query options st) = Return results ->
  List.map entry_book results ⊆+ allBooks /\
  length results <= length allBooks /\
  ((0 <= get_limit options)%Z -> length results <= Z.to_nat (get_limit options)) /\
  (readProperty (fun p => match p with p_limit v => Some v | _ => None end) options = None ->
   length results <= 10).
Proof.
  intros Hmiss Hfetch Hex Hres.
  rewrite (advancedSearch_ranked _ _ _ _ Hmiss Hfetch Hex) in Hres.
  destruct (scoreAll (normalize query) allBooks) as [sb|e] eqn:Esb; [|discriminate].
  injection Hres as <-. destruct (scoreAll_Return _ _ _ Esb) as [Hbooks _].
  pose proof (rank_books options sb) as Hsub. rewrite Hbooks in Hsub.
  split; [exact Hsub|]. split.
  { apply submseteq_length in Hsub. rewrite length_map in Hsub. exact Hsub. }
  split; [apply rank_length|].
  intros Hno. pose proof (rank_length options sb) as Hl.
  unfold get_limit in Hl. rewrite Hno in Hl. simpl in Hl. apply Hl. discriminate.
Qed.

(** X11. Nothing that qualifies is lost: when the limit is at least the
    number of fetched rows, every row whose score reaches the threshold is
    in the result, with that score. *)
Theorem advancedSearch_complete (query : jsstring) (options : Options)
    (st : searchCache.state C) (allBooks : list book) (results : list entry)
    (b : book) (s : Q) :
  fst (searchCache.get (cacheKeyOf query options) st) = None ->
  fetchCandidates options = Return allBooks ->
  exactMatch (normalize query) allBooks = None ->
  fst (advancedSearch query options st) = Return results ->
  (Z.of_nat (length allBooks) <= get_limit options)%Z ->
  b ∈ allBooks ->
  scoreBook b (normalize query) = Return s ->
  (config.search.fuzzyThreshold <= s)%Q ->
  {| entry_book := b; entry_score := Some s |} ∈ results.
Proof.
  intros Hmiss Hfetch Hex Hres Hlim Hb Hs Hth.
  rewrite (advancedSearch_ranked _ _ _ _ Hmiss Hfetch Hex) in Hres.
  destruct (scoreAll (normalize query) allBooks) as [sb|e] eqn:Esb; [|discriminate].
  injection Hres as <-. destruct (scoreAll_Return _ _ _ Esb) as [Hbooks Hsc].
  assert (Hin : {| the_book := b; score := s |} ∈ sb).
  { rewrite <- Hbooks in Hb. apply list_elem_of_In, in_map_iff in Hb as (x & <- & Hx).
    rewrite Forall_forall in Hsc. pose proof (Hsc x (proj2 (list_elem_of_In _ _) Hx)) as Ex.
    rewrite Hs in Ex. injection Ex as ->. destruct x. apply list_elem_of_In, Hx. }
  unfold rank. rewrite slice0_all.
  - apply list_elem_of_In, in_map_iff. exists {| the_book := b; score := s |}.
    split; [reflexivity|].
    apply (Permutation_in _ (Permutation_sym (sort_perm _ _))).
    unfold passing. apply filter_In. split; [apply list_elem_of_In, Hin|].
    apply Qle_bool_iff, Hth.
  - pose proof (Permutation_length (sort_perm (comparatorOf (get_sortBy options)) (passing sb))) as Hp.
    pose proof (sublist_length _ _ (filter_sublist
                  (fun x => Qle_bool config.search.fuzzyThreshold (score x)) sb)) as Hf.
    fold (passing sb) in Hf.
    rewrite <- Hbooks, length_map in Hlim. lia.
Qed.

(** X12. Under the default order the first result is the best match: no
    fetched row has a higher score than the entry at the head of the
    result. *)
Theorem advancedSearch_best_first (query : jsstring) (options : Options)
    (st : searchCache.state C) (allBooks : list book) (best : entry)
    (others : list entry) (b : book) (s : Q) :
  fst (searchCache.get (cacheKeyOf query options) st) = None ->
  fetchCandidates options = Return allBooks ->
  exactMatch (normalize query) allBooks = None ->
  get_sortBy options <> lit "popularity" ->
  get_sortBy options <> lit "name" ->
  fst (advancedSearch query options st) = Return (best :: others) ->
  b ∈ allBooks ->
  scoreBook b (normalize query) = Return s ->
  exists top, entry_score best = Some top /\
              scoreBook (entry_book best) (normalize query) = Return top /\
              (s <= top)%Q.
Proof.
  intros Hmiss Hfetch Hex Hp Hn Hres Hb Hs.
  rewrite (advancedSearch_ranked _ _ _ _ Hmiss Hfetch Hex) in Hres.
  destruct (scoreAll (normalize query) allBooks) as [sb|e] eqn:Esb; [|discriminate].
  injection Hres as Hres. destruct (scoreAll_Return _ _ _ Esb) as [Hbooks Hsc].
  unfold rank, comparatorOf in Hres.
  rewrite !bool_decide_eq_false_2 in Hres by assumption.
  set (sorted := sort byRelevance (passing sb)) in *.
  assert (Hsorted : StronglySorted (fun x y => (byRelevance x y <= 0)%Q) sorted).
  { apply (sort_sorted byRelevance (fun _ => True)).
    - intros x y _ _. unfold byRelevance. lra.
    - intros x y z _ _ _. unfold byRelevance. lra.
    - apply Forall_forall. auto. }
  assert (Hhead : exists x rest, sorted = x :: rest /\ best = scored x).
  { unfold slice0 in Hres. destruct (get_limit options <? 0)%Z;
      destruct sorted as [|x rest]; try (rewrite firstn_nil in Hres; discriminate Hres);
      match type of Hres with
      | List.map _ (firstn ?k _) = _ =>
          destruct k; [discriminate Hres|]; simpl in Hres;
          injection Hres as <- _; eauto
      end. }
  destruct Hhead as (x & rest & Esorted & ->).
  assert (Hx : x ∈ sb).
  { apply list_elem_of_In.
    assert (Hxs : In x sorted) by (rewrite Esorted; left; reflexivity).
    apply (Permutation_in _ (sort_perm _ _)) in Hxs.
    apply filter_In in Hxs as [Hxs _]. exact Hxs. }
  assert (Hxth : (config.search.fuzzyThreshold <= score x)%Q).
  { assert (Hxs : In x sorted) by (rewrite Esorted; left; reflexivity).
    apply (Permutation_in _ (sort_perm _ _)) in Hxs.
    apply filter_In in Hxs as [_ Hle]. apply Qle_bool_iff, Hle. }
  rewrite Forall_forall in Hsc.
  exists (score x). split; [reflexivity|]. split; [apply Hsc, Hx|].
  destruct (Qlt_le_dec s config.search.fuzzyThreshold) as [Hlow|Hhigh]; [lra|].
  assert (Hin : {| the_book := b; score := s |} ∈ sb).
  { rewrite <- Hbooks in Hb. apply list_elem_of_In, in_map_iff in Hb as (y & <- & Hy).
    pose proof (Hsc y (proj2 (list_elem_of_In _ _) Hy)) as Ey.
    rewrite Hs in Ey. injection Ey as ->. destruct y. apply list_elem_of_In, Hy. }
  assert (Hins : In {| the_book := b; score := s |} sorted).
  { apply (Permutation_in _ (Permutation_sym (sort_perm _ _))).
    apply filter_In. split; [apply list_elem_of_In, Hin | apply Qle_bool_iff, Hhigh]. }
  rewrite Esorted in Hins, Hsorted. apply StronglySorted_inv in Hsorted as [_ Hall].
  destruct Hins as [Ex|Hins]; [rewrite Ex; simpl; lra|].
  rewrite Forall_forall in Hall.
  specialize (Hall _ (proj2 (list_elem_of_In _ _) Hins)).
  unfold byRelevance in Hall. simpl in Hall. lra.
Qed.


End RankProperties.

Section AgainProperties.
Context `{Host} {C : Type} `{NodeCache (list entry) C}.

(** X14. Once a search has stored its result, the same search is answered
    from the cache: on a store that reads back what it accepted, a search
    that missed, found rows, returned [results] and had its write accepted
    is followed by the same results for the same query and options,
    whatever database [db'] is asked by then. *)
Theorem advancedSearch_served_again (db db' : Database) (query : jsstring)
    (options : Options) (st : searchCache.state C) (allBooks : list book)
    (results : list entry) :
  readsBack ->
  fst (searchCache.get (cacheKeyOf query options) st) = None ->
  @fetchCandidates db options = Return allBooks ->
  allBooks <> [] ->
  fst (@advancedSearch _ db _ _ query options st) = Return results ->
  fst (searchCache.set (cacheKeyOf query options) results None
         (snd (searchCache.get (cacheKeyOf query options) st))) = true ->
  fst (@advancedSearch _ db' _ _ query options
         (snd (@advancedSearch _ db _ _ query options st)))
    = Return results.
Proof.
  intros Hlaw Hmiss Hfetch Hne Hres Hok.
  assert (Hst : snd (@advancedSearch _ db _ _ query options st) =
                snd (searchCache.set (cacheKeyOf query options) results None
                       (snd (searchCache.get (cacheKeyOf query options) st)))).
  { rewrite (@advancedSearch_on_miss _ db _ _ _ _ _ _ Hmiss Hfetch) in Hres |- *.
    cbv zeta in Hres |- *. rewrite (length_eqb_0_false _ Hne) in Hres |- *.
    destruct (exactMatch (normalize query) allBooks).
    - simpl in Hres. injection Hres as <-. reflexivity.
    - destruct (scoreAll (normalize query) allBooks); [|discriminate Hres].
      simpl in Hres. injection Hres as <-. reflexivity. }
  rewrite Hst. unfold searchCache.set in Hok |- *. simpl in Hok |- *.
  destruct (nc_set (cacheKeyOf query options) results None
              (searchCache.store (snd (searchCache.get (cacheKeyOf query options) st))))
    as [ok s'] eqn:Eset.
  simpl in Hok. subst ok. simpl.
  pose proof (Hlaw _ _ _ _ Eset) as Hback.
  rewrite (advancedSearch_on_hit db' query options _ results); [reflexivity|].
  unfold searchCache.get. simpl.
  destruct (nc_get (cacheKeyOf query options) s') as [v s'']. simpl in Hback.
  subst v. reflexivity.
Qed.

End AgainProperties.

Section BlankProperties.
Context `{Host} `{Database} {C : Type} `{NodeCache (list entry) C}.





End BlankProperties.

(** *** The extras on the small setting *)

Lemma mapStore_readsBack : @readsBack _ _ (mapStore (list entry)).
Proof.
  intros key value s s'. simpl.
  destruct (decide _); [discriminate|]. intros [= <-]. apply lookup_insert_eq.
Qed.

Lemma advancedSearch_hit_witness :
  @advancedSearch asciiHost (tableOf []) _ (mapStore (list entry))
    (lit "42") [p_limit 10] (snd (run rows (lit "42") [p_limit 10]))
  = (Return [bare book42],
     {| searchCache.store := searchCache.store (snd (run rows (lit "42") [p_limit 10]));
        searchCache.hits := 1; searchCache.misses := 1 |}).
Proof.
  rewrite (@advancedSearch_hit asciiHost _ (mapStore (list entry)) (tableOf [])
             (lit "42") [p_limit 10] _ [bare book42]).
  - reflexivity.
  - vm_compute. reflexivity.
Defined.

Lemma advancedSearch_limit_witness :
  exists results,
    fst (run rows (lit "logic") [p_limit 1]) = Return results /\ length results <= 1.
Proof.
  destruct (fst (run rows (lit "logic") [p_limit 1])) as [results|e] eqn:E;
    [|vm_compute in E; discriminate E].
  exists results. split; [reflexivity|].
  refine (proj1 (proj2 (proj2
    (@advancedSearch_limit asciiHost (tableOf rows) _ (mapStore (list entry))
       (lit "logic") [p_limit 1] emptyCache rows results _ _ _ E))) _).
  - vm_compute. reflexivity.
  - reflexivity.
  - vm_compute. reflexivity.
  - discriminate.
Defined.

Lemma advancedSearch_complete_witness :
  {| entry_book := book2; entry_score := Some (39500 # 50000) |}
    ∈ [scored {| the_book := book1; score := 40500 # 50000 |};
       scored {| the_book := book2; score := 39500 # 50000 |}].
Proof.
  apply (@advancedSearch_complete asciiHost (tableOf rows) _ (mapStore (list entry))
           (lit "logic") defaultOptions emptyCache rows).
  - vm_compute. reflexivity.
  - reflexivity.
  - vm_compute. reflexivity.
  - vm_compute. reflexivity.
  - vm_compute. discriminate.
  - unfold rows. rewrite !elem_of_cons. auto.
  - vm_compute. reflexivity.
  - vm_compute. discriminate.
Defined.

Lemma advancedSearch_best_first_witness :
  exists top,
    Some (40500 # 50000)%Q = Some top /\
    @scoreBook asciiHost book1 (normalize (lit "logic")) = Return top /\
    (39500 # 50000 <= top)%Q.
Proof.
  apply (@advancedSearch_best_first asciiHost (tableOf rows) _ (mapStore (list entry))
           (lit "logic") defaultOptions emptyCache rows
           (scored {| the_book := book1; score := 40500 # 50000 |})
           [scored {| the_book := book2; score := 39500 # 50000 |}] book2).
  - vm_compute. reflexivity.
  - reflexivity.
  - vm_compute. reflexivity.
  - vm_compute. discriminate.
  - vm_compute. discriminate.
  - vm_compute. reflexivity.
  - unfold rows. rewrite !elem_of_cons. auto.
  - vm_compute. reflexivity.
Defined.


Lemma advancedSearch_served_again_witness :
  fst (@advancedSearch asciiHost (tableOf []) _ (mapStore (list entry))
         (lit "logic") defaultOptions (snd (run rows (lit "logic") defaultOptions)))
  = fst (run rows (lit "logic") defaultOptions).
Proof.
  destruct (fst (run rows (lit "logic") defaultOptions)) as [results|e] eqn:E;
    [|vm_compute in E; discriminate E].
  apply (@advancedSearch_served_again asciiHost _ (mapStore (list entry))
           (tableOf rows) (tableOf []) (lit "logic") defaultOptions emptyCache rows results).
  - exact mapStore_readsBack.
  - vm_compute. reflexivity.
  - reflexivity.
  - discriminate.
  - exact E.
  - vm_compute in E. injection E as <-. vm_compute. reflexivity.
Defined.


(** ** More about the normalizer *)

Lemma foldDigit_asciiDigitOf (c : N) : foldDigit c = asciiDigitOf c.
Proof.
  apply N.eqb_eq. revert c.
  apply (by_special (fun c => (foldDigit c =? asciiDigitOf c)%N)).
  - vm_compute. reflexivity.
  - intros c Hn. rewrite (foldDigit_other c Hn). apply N.eqb_eq.
    unfold special in Hn. rewrite !not_elem_of_app in Hn. destruct Hn as (Ha & Hp & _).
    unfold arabicDigits in Ha. unfold persianDigits in Hp.
    rewrite !not_elem_of_cons in Ha, Hp.
    unfold asciiDigitOf.
    destruct (N.leb_spec 0x660 c), (N.leb_spec c 0x669),
             (N.leb_spec 0x6F0 c), (N.leb_spec c 0x6F9); simpl; lia.
Qed.

(** X16. [convertToEnglishDigits] replaces every Arabic-Indic and every
    Persian digit by the ASCII digit of the same value and leaves every
    other code unit alone; the length does not change and no such digit
    is left. *)
Theorem convertToEnglishDigits_folds (s : jsstring) :
  convertToEnglishDigits s = List.map asciiDigitOf s /\
  length (convertToEnglishDigits s) = length s /\
  Forall (fun c => (c ∉ arabicDigits) /\ (c ∉ persianDigits)) (convertToEnglishDigits s).
Proof.
  rewrite convertToEnglishDigits_map.
  split; [apply List.map_ext, foldDigit_asciiDigitOf|].
  split; [apply length_map|].
  apply Forall_forall. intros c Hc.
  apply list_elem_of_In, in_map_iff in Hc as (d & <- & _).
  assert (Hb : negb (existsb (N.eqb (foldDigit d)) (arabicDigits ++ persianDigits)) = true).
  { revert d. apply by_special; [vm_compute; reflexivity|].
    intros d Hd. rewrite (foldDigit_other d Hd).
    rewrite existsb_eqb_notin; [reflexivity|].
    unfold special in Hd. rewrite !not_elem_of_app in Hd.
    destruct Hd as (Ha & Hp & _). rewrite not_elem_of_app. split; assumption. }
  apply negb_true_iff in Hb.
  split; intros Hin;
    (assert (Hex : existsb (N.eqb (foldDigit d)) (arabicDigits ++ persianDigits) = true)
       by (apply existsb_eqb_elem, elem_of_app; auto));
    congruence.
Qed.

Lemma trimStart_subseteq (s : jsstring) : trimStart s ⊆ s.
Proof.
  induction s as [|c s IH]; simpl; [reflexivity|].
  destruct (isWhiteSpace c); [|reflexivity].
  intros x Hx. right. apply IH, Hx.
Qed.

Lemma trimEnd_subseteq (s : jsstring) : trimEnd s ⊆ s.
Proof.
  induction s as [|c s IH]; simpl; [reflexivity|].
  destruct (trimEnd s) as [|d r].
  - destruct (isWhiteSpace c); [apply list_subseteq_nil|].
    intros x Hx. apply list_elem_of_singleton in Hx as ->. left.
  - intros x Hx. apply elem_of_cons in Hx as [->|Hx]; [left | right; apply IH, Hx].
Qed.

Lemma trimStart_length (s : jsstring) : length (trimStart s) <= length s.
Proof.
  induction s as [|c s IH]; simpl; [lia|]. destruct (isWhiteSpace c); simpl; lia.
Qed.

Lemma trimEnd_length (s : jsstring) : length (trimEnd s) <= length s.
Proof.
  induction s as [|c s IH]; simpl; [lia|].
  destruct (trimEnd s); [destruct (isWhiteSpace c)|]; simpl in *; lia.
Qed.

Lemma trim_length (s : jsstring) : length (trim s) <= length s.
Proof.
  unfold trim. pose proof (trimEnd_length (trimStart s)).
  pose proof (trimStart_length s). lia.
Qed.

(** X17. A normalized string is in canonical form: it holds none of the
    folded letters and none of the Arabic-Indic or Persian digits, it
    neither starts nor ends with white space ([trim] leaves it alone), and
    it is no longer than the input. *)
Theorem normalize_canonical (s : jsstring) :
  Forall (fun c => c ∉ special) (normalize s) /\
  trim (normalize s) = normalize s /\
  length (normalize s) <= length s.
Proof.
  rewrite normalize_map. split; [|split].
  - apply Forall_forall. intros c Hc.
    apply list_elem_of_In, in_map_iff in Hc as (d & <- & Hd).
    apply list_elem_of_In in Hd. unfold trim in Hd.
    apply trimEnd_subseteq, trimStart_subseteq in Hd.
    apply list_elem_of_In, in_map_iff in Hd as (e & <- & _).
    assert (Hb : negb (existsb (N.eqb (foldDigit (foldChar e))) special) = true).
    { revert e. apply by_special; [vm_compute; reflexivity|].
      intros e He. rewrite (foldChar_other e He), (foldDigit_other e He).
      rewrite existsb_eqb_notin; [reflexivity | exact He]. }
    apply negb_true_iff in Hb. intros Hin.
    apply existsb_eqb_elem in Hin. congruence.
  - rewrite (trim_map foldDigit) by apply isWhiteSpace_foldDigit.
    rewrite trim_idem. reflexivity.
  - rewrite length_map. pose proof (trim_length (List.map foldChar s)) as Hl.
    rewrite length_map in Hl. exact Hl.
Qed.

(** *** Decimal numerals *)










Section SearchById.
Context `{Host} `{Database} {C : Type} `{NodeCache (list entry) C}.


End SearchById.


(** ** HTML escaping *)

Lemma replaceAll_app (c : N) (r a b : jsstring) :
  replaceAll c r (a ++ b) = replaceAll c r a ++ replaceAll c r b.
Proof. apply flat_map_app. Qed.

Lemma escapeChar_cases (c : N) :
  (c = 38%N /\ escapeChar c = lit "&amp;") \/
  (c = 60%N /\ escapeChar c = lit "&lt;") \/
  (c = 62%N /\ escapeChar c = lit "&gt;") \/
  (c = 34%N /\ escapeChar c = lit "&quot;") \/
  (c = 39%N /\ escapeChar c = lit "&#039;") \/
  ((c <> 38 /\ c <> 60 /\ c <> 62 /\ c <> 34 /\ c <> 39)%N /\ escapeChar c = [c]).
Proof.
  unfold escapeChar.
  destruct (N.eqb_spec c 38); [auto|].
  destruct (N.eqb_spec c 60); [auto|].
  destruct (N.eqb_spec c 62); [auto 6|].
  destruct (N.eqb_spec c 34); [auto 7|].
  destruct (N.eqb_spec c 39); [auto 8|].
  do 5 right. auto 10.
Qed.

Lemma escapeHtml_cons (c : N) (s : jsstring) :
  escapeHtml (c :: s) = escapeChar c ++ escapeHtml s.
Proof.
  unfold escapeHtml.
  change (replaceAll 38 (lit "&amp;") (c :: s))
    with ((if (c =? 38)%N then lit "&amp;" else [c]) ++ replaceAll 38 (lit "&amp;") s).
  rewrite !replaceAll_app. f_equal.
  destruct (escapeChar_cases c) as [[-> E]|[[-> E]|[[-> E]|[[-> E]|[[-> E]|[Hc E]]]]]];
    rewrite E; try reflexivity.
  destruct Hc as (H1 & H2 & H3 & H4 & H5).
  rewrite (proj2 (N.eqb_neq c 38) H1). unfold replaceAll. simpl.
  rewrite (proj2 (N.eqb_neq c 60) H2). simpl.
  rewrite (proj2 (N.eqb_neq c 62) H3). simpl.
  rewrite (proj2 (N.eqb_neq c 34) H4). simpl.
  rewrite (proj2 (N.eqb_neq c 39) H5). reflexivity.
Qed.

Lemma escapeHtml_flat_map (s : jsstring) : escapeHtml s = flat_map escapeChar s.
Proof.
  induction s as [|c s IH]; [reflexivity|].
  rewrite escapeHtml_cons, IH. reflexivity.
Qed.

(** X19. Escaped text carries no markup: the result of [escapeHtml] (and of
    [sanitizeHtml]) holds no [<], [>], double or single quote, the
    ampersands it holds open one of the five entities, text without the
    five characters is returned as it is, and nothing gets shorter.
    [sanitizeHtml] answers the empty string for a missing or empty
    text. *)
Theorem escapeHtml_no_markup (s : jsstring) :
  Forall (fun c => c <> 60 /\ c <> 62 /\ c <> 34 /\ c <> 39)%N (escapeHtml s) /\
  (Forall (fun c => c <> 38 /\ c <> 60 /\ c <> 62 /\ c <> 34 /\ c <> 39)%N s ->
   escapeHtml s = s) /\
  length s <= length (escapeHtml s) /\
  sanitizeHtml (Some s) = escapeHtml s /\
  sanitizeHtml None = [].
Proof.
  split; [|split; [|split; [|split]]].
  - rewrite escapeHtml_flat_map. apply Forall_forall. intros c Hc.
    apply list_elem_of_In, in_flat_map in Hc as (d & _ & Hd).
    destruct (escapeChar_cases d) as [[-> E]|[[-> E]|[[-> E]|[[-> E]|[[-> E]|[Hn E]]]]]];
      rewrite E in Hd; simpl in Hd;
      repeat (destruct Hd as [<-|Hd]; [repeat split; lia|]); contradiction.
  - intros Hs. rewrite escapeHtml_flat_map.
    induction Hs as [|c s Hc Hs IH]; [reflexivity|]. simpl. rewrite IH.
    destruct (escapeChar_cases c) as [[-> E]|[[-> E]|[[-> E]|[[-> E]|[[-> E]|[Hn E]]]]]];
      try (exfalso; lia). rewrite E. reflexivity.
  - rewrite escapeHtml_flat_map. induction s as [|c s IH]; [reflexivity|].
    simpl. rewrite length_app.
    destruct (escapeChar_cases c) as [[-> E]|[[-> E]|[[-> E]|[[-> E]|[[-> E]|[Hn E]]]]]];
      rewrite E; simpl; lia.
  - destruct s; reflexivity.
  - reflexivity.
Qed.

(** X20. Escaping loses nothing: two different texts never escape to the
    same text. *)
Theorem escapeHtml_injective (s1 s2 : jsstring) :
  escapeHtml s1 = escapeHtml s2 -> s1 = s2.
Proof.
  rewrite !escapeHtml_flat_map. revert s2.
  induction s1 as [|c1 s1 IH]; intros [|c2 s2]; cbn [flat_map]; intros E.
  - reflexivity.
  - exfalso.
    destruct (escapeChar_cases c2) as [[-> E2]|[[-> E2]|[[-> E2]|[[-> E2]|[[-> E2]|[Hn E2]]]]]];
      rewrite E2 in E; discriminate E.
  - exfalso.
    destruct (escapeChar_cases c1) as [[-> E1]|[[-> E1]|[[-> E1]|[[-> E1]|[[-> E1]|[Hn E1]]]]]];
      rewrite E1 in E; discriminate E.
  - destruct (escapeChar_cases c1) as [[-> E1]|[[-> E1]|[[-> E1]|[[-> E1]|[[-> E1]|[Hn1 E1]]]]]];
    destruct (escapeChar_cases c2) as [[-> E2]|[[-> E2]|[[-> E2]|[[-> E2]|[[-> E2]|[Hn2 E2]]]]]];
      rewrite ?E1, ?E2 in E; simpl in E;
      try discriminate E;
      try (injection E as E; f_equal; apply IH; exact E);
      try (injection E as Ec E; exfalso; lia).
    injection E as -> E. f_equal. apply IH, E.
Qed.

Lemma escapeHtml_injective_witness :
  lit "a<b" = lit "a<b".
Proof. apply escapeHtml_injective. reflexivity. Defined.

Lemma escapeHtml_no_markup_witness : escapeHtml (lit "Ali") = lit "Ali".
Proof.
  apply (proj1 (proj2 (escapeHtml_no_markup (lit "Ali")))).
  repeat constructor; discriminate.
Defined.

(** ** Truncation *)

(** X21. [truncateText] never returns more than [maxLength] characters when
    [maxLength] is at least 2: a text that fits is returned as it is, a
    longer one is cut to its first [maxLength - 2] characters followed by
    two dots. Below 2 the two dots alone can exceed the bound. *)
Theorem truncateText_bound (text : jsstring) (maxLength : Z) :
  (Z.of_nat (length text) <= maxLength -> truncateText text maxLength = text)%Z /\
  (maxLength < Z.of_nat (length text) ->
   truncateText text maxLength = firstn (Z.to_nat (maxLength - 2)) text ++ lit "..")%Z /\
  (2 <= maxLength -> Z.of_nat (length (truncateText text maxLength)) <= maxLength)%Z /\
  (Z.of_nat (length (truncateText text maxLength)) <= Z.max maxLength 2)%Z.
Proof.
  unfold truncateText, substring0.
  destruct (Z.ltb_spec maxLength (Z.of_nat (length text))) as [Hlong|Hfit].
  - repeat split; try reflexivity; try lia;
      rewrite ?length_app, ?length_firstn; simpl; lia.
  - repeat split; try reflexivity; lia.
Qed.

Lemma truncateText_bound_witness :
  (Z.of_nat (length (truncateText (lit "a very long title of a book") 10)) <= 10)%Z.
Proof. apply (proj1 (proj2 (proj2 (truncateText_bound _ 10)))). lia. Defined.

(** ** Search by several fields *)

Lemma split_length (sep : N) (s : jsstring) :
  length (split sep s) = S (length (List.filter (N.eqb sep) s)).
Proof.
  induction s as [|c s IH]; [reflexivity|]. simpl.
  rewrite (N.eqb_sym sep c).
  destruct (c =? sep)%N; simpl; [rewrite IH; reflexivity|].
  destruct (split sep s) as [|p ps]; simpl in *; [discriminate IH | exact IH].
Qed.

Section MultiField.
Context `{Database}.

(** X22. [multiFieldSearch] returns rows of the fetch, in their order,
    keeping exactly those whose number of file parts (the pieces of
    [file_path] between [|], none for a missing path) respects the bounds
    given; a bound that is absent or zero does not filter. A rejected
    query gives the empty list instead of an exception. *)
Theorem multiFieldSearch_filters (c : criteria) :
  (forall e, db_all (fst (multiFieldQuery c)) (snd (multiFieldQuery c)) = Throw e ->
             multiFieldSearch c = []) /\
  (forall rows,
     db_all (fst (multiFieldQuery c)) (snd (multiFieldQuery c)) = Return rows ->
     multiFieldSearch c `sublist_of` rows /\
     forall b, b ∈ multiFieldSearch c <->
       b ∈ rows /\
       (forall lo, minParts c = Some lo -> lo <> 0%Z -> (lo <= Z.of_nat (partsCount b))%Z) /\
       (forall hi, maxParts c = Some hi -> hi <> 0%Z -> (Z.of_nat (partsCount b) <= hi)%Z)) /\
  (forall b path, file_path b = Some path -> path <> [] ->
     partsCount b = S (length (List.filter (N.eqb 124) path))) /\
  (forall b, file_path b = None \/ file_path b = Some [] -> partsCount b = 0).
Proof.
  unfold multiFieldSearch. destruct (multiFieldQuery c) as [query params]. simpl.
  split; [intros e ->; reflexivity|]. split.
  - intros rows ->.
    assert (Hf : forall b, partsFilter (minParts c) (maxParts c) b = true <->
               (forall lo, minParts c = Some lo -> lo <> 0%Z -> (lo <= Z.of_nat (partsCount b))%Z) /\
               (forall hi, maxParts c = Some hi -> hi <> 0%Z -> (Z.of_nat (partsCount b) <= hi)%Z)).
    { intros b. unfold partsFilter, truthyNumber.
      destruct (minParts c) as [lo|], (maxParts c) as [hi|];
        repeat match goal with
        | |- context [(?x =? 0)%Z] => destruct (Z.eqb_spec x 0)
        | |- context [(?x <? ?y)%Z] => destruct (Z.ltb_spec x y)
        end; simpl; split;
        try (intros _; split; intros ? [= <-] ?; lia);
        try discriminate; try reflexivity;
        intros [Hlo Hhi];
        try (specialize (Hlo _ eq_refl ltac:(assumption)));
        try (specialize (Hhi _ eq_refl ltac:(assumption))); lia. }
    assert (Hall : forall b, b ∈ List.filter (partsFilter (minParts c) (maxParts c)) rows <->
                             b ∈ rows /\ partsFilter (minParts c) (maxParts c) b = true).
    { intros b. rewrite !list_elem_of_In, filter_In. reflexivity. }
    destruct (truthyNumber (minParts c)) as [lo|] eqn:Elo;
      destruct (truthyNumber (maxParts c)) as [hi|] eqn:Ehi;
      try (split; [apply filter_sublist|]; intros b; rewrite Hall, Hf; reflexivity).
    split; [reflexivity|]. intros b. split; [|tauto].
    intros Hb. split; [exact Hb|]. apply Hf.
    unfold partsFilter. rewrite Elo, Ehi. reflexivity.
  - split.
    + intros b path Hp Hne. unfold partsCount. rewrite Hp.
      destruct path; [congruence|]. simpl truthy. cbv iota beta. apply split_length.
    + intros b [Hp|Hp]; unfold partsCount; rewrite Hp; reflexivity.
Qed.

End MultiField.

Lemma multiFieldSearch_filters_witness :
  @multiFieldSearch (tableOf rows)
    {| bookName := None; authorName := None; criteria_category := None;
       minParts := Some 1%Z; maxParts := None |} `sublist_of` rows.
Proof.
  apply (proj2 (@multiFieldSearch_filters (tableOf rows) _)). reflexivity.
Defined.

(** ** Input validation *)

Lemma normalize_length (s : jsstring) : length (normalize s) <= length s.
Proof.
  rewrite normalize_map, length_map.
  pose proof (trim_length (List.map foldChar s)) as Hl.
  rewrite length_map in Hl. exact Hl.
Qed.

Lemma isAsciiLetter_fold (c : N) :
  isAsciiLetter (foldDigit (foldChar c)) = isAsciiLetter c.
Proof.
  apply eqb_prop. revert c. apply by_special; [vm_compute; reflexivity|].
  intros c Hc. rewrite (foldChar_other c Hc), (foldDigit_other c Hc). apply eqb_reflx.
Qed.

Lemma normalize_no_letters (s : jsstring) :
  existsb isAsciiLetter s = false -> existsb isAsciiLetter (normalize s) = false.
Proof.
  intros Hs. destruct (existsb isAsciiLetter (normalize s)) eqn:E; [|reflexivity].
  apply existsb_exists in E as (c & Hc & Hl).
  rewrite normalize_map in Hc. apply in_map_iff in Hc as (d & <- & Hd).
  apply list_elem_of_In in Hd. unfold trim in Hd.
  apply trimEnd_subseteq, trimStart_subseteq in Hd.
  apply list_elem_of_In, in_map_iff in Hd as (e & <- & He).
  rewrite isAsciiLetter_fold in Hl.
  assert (existsb isAsciiLetter s = true) by (apply existsb_exists; eauto).
  congruence.
Qed.

Section Validation.
Context `{Unicode}.

Lemma reject_cases (ctx : context) (text message : jsstring)
    (meta : list (list N * metaValue)) :
  (reply ctx text = None /\
   reject ctx text message meta = (Return false, [Replied text; LoggedWarning message meta])) \/
  (exists e, reply ctx text = Some e /\ reject ctx text message meta = (Throw e, [])).
Proof. unfold reject. destruct (reply ctx text) as [e|]; eauto. Qed.

(** X23. [validateUserInput] accepts a text only if it has no ASCII letter,
    at most 37 code units, no code point with the Emoji property and no
    media attached, and then sends nothing; the normalizer keeps such a
    text within [config.search.maxQueryLength] and free of ASCII letters.
    A refusal sends exactly one reply and logs one warning; if the reply
    itself fails, its exception leaves the function and nothing is
    logged. *)
Theorem validateUserInput_contract (ctx : context) (userInput : jsstring)
    (trace : list effect) :
  (validateUserInput ctx userInput = (Return true, trace) ->
   trace = [] /\
   existsb isAsciiLetter userInput = false /\
   length userInput <= 37 /\
   existsb emojiProperty (codePoints userInput) = false /\
   message_photo ctx || message_video ctx || message_document ctx = false /\
   length (normalize userInput) <= config.search.maxQueryLength /\
   existsb isAsciiLetter (normalize userInput) = false) /\
  (validateUserInput ctx userInput = (Return false, trace) ->
   exists text message meta,
     trace = [Replied text; LoggedWarning message meta] /\ reply ctx text = None) /\
  (forall e, validateUserInput ctx userInput = (Throw e, trace) ->
     trace = [] /\ exists text, reply ctx text = Some e).
Proof.
  unfold validateUserInput.
  destruct (existsb isAsciiLetter userInput) eqn:Eletters.
  { destruct (reject_cases ctx replyLetters (lit "User input contains English letters")
      [(lit "userId", meta_number (from_id ctx)); (lit "input", meta_string userInput)])
      as [[Hr ->]|(e & Hr & ->)];
      (split; [discriminate|]); split; try discriminate;
      try (intros [= <-]; eauto 6); intros e' [= <- <-]; eauto. }
  destruct (37 <? length userInput) eqn:Elen.
  { destruct (reject_cases ctx replyTooLong (lit "User input too long")
      [(lit "userId", meta_number (from_id ctx));
       (lit "length", meta_number (Z.of_nat (length userInput)))])
      as [[Hr ->]|(e & Hr & ->)];
      (split; [discriminate|]); split; try discriminate;
      try (intros [= <-]; eauto 6); intros e' [= <- <-]; eauto. }
  destruct (existsb emojiProperty (codePoints userInput)) eqn:Eemoji.
  { destruct (reject_cases ctx replyEmoji (lit "User input contains emoji")
      [(lit "userId", meta_number (from_id ctx))])
      as [[Hr ->]|(e & Hr & ->)];
      (split; [discriminate|]); split; try discriminate;
      try (intros [= <-]; eauto 6); intros e' [= <- <-]; eauto. }
  destruct (message_photo ctx || message_video ctx || message_document ctx) eqn:Emedia.
  { destruct (reject_cases ctx replyMedia (lit "User sent media instead of text")
      [(lit "userId", meta_number (from_id ctx))])
      as [[Hr ->]|(e & Hr & ->)];
      (split; [discriminate|]); split; try discriminate;
      try (intros [= <-]; eauto 6); intros e' [= <- <-]; eauto. }
  split; [|split; [discriminate | intros e; discriminate]].
  intros [= <-]. apply Nat.ltb_ge in Elen.
  repeat split; auto.
  - pose proof (normalize_length userInput). unfold config.search.maxQueryLength. lia.
  - apply normalize_no_letters, Eletters.
Qed.

End Validation.

Lemma validateUserInput_contract_witness :
  length (normalize [0x641; 0x642; 0x647; 0x20; 0x661]%N) <= config.search.maxQueryLength.
Proof.
  apply (proj1 (@validateUserInput_contract sampleUnicode textMessage
                  [0x641; 0x642; 0x647; 0x20; 0x661]%N [])).
  reflexivity.
Defined.

(** ** More about the cache key *)

(** X24. For the same options two different normalized queries never share
    a cache key. *)
Theorem generateSearchKey_separates_queries (q1 q2 : jsstring) (options : Options) :
  searchCache.generateSearchKey q1 options = searchCache.generateSearchKey q2 options
  <-> q1 = q2.
Proof.
  split; [|intros ->; reflexivity].
  unfold searchCache.generateSearchKey. intros E.
  apply app_inv_head in E. apply app_inv_tail in E. exact E.
Qed.
